(** * Football Scout: the table classification, merge, filter and export
      logic of [footballscoutanalysis.py], embedded in Rocq.

    Conventions of the embedding.
    - A Python [str] is a [string]; the character functions ([upper],
      [lower], [split], [strip]) are those of Python on ASCII text.
      Characters of code 128 and above are left unchanged by the case
      functions and are never white space.
    - A Python [set] of strings is a [gset string].
    - A pandas frame is its column index and its rows.  Rows are typed as
      the script uses them: [Name], [Pos] and [Club] are strings, [Age] is
      an integer, a cell of the scraped column [R] is [option string]
      ([None]: the cell is absent, pandas' NaN) and a numeric [Rating] is
      [option Z] ([None]: NaN).  Numbers are whole, as the ratings and
      ages of the page are; a statement about the sliders, where [int]
      would cut a fraction off, is a statement about whole numbers.
    - The Position Classifier is also given on any Python string, as a
      list of code points, with [str.isspace] and [str.upper] as
      variables ([Unicode.tokenise_pos]).
    - pandas calls whose result pandas leaves open are section variables:
      the number syntax of [pd.to_numeric], and the order that
      [sort_values] gives to equal keys under its default [kind];
      [sort_values_quicksort] is that order as pandas and numpy's scalar
      quicksort compute it. *)

From Stdlib Require Import ZArith Ascii String List Bool Lia.
From Stdlib Require Import Permutation Sorted.
From Stdlib Require QArith.
From stdpp Require Import base decidable option list sets gmap strings.

Local Open Scope string_scope.
Local Open Scope list_scope.

(** ** Characters and strings *)

Module Text.

Definition code (c : ascii) : N := N_of_ascii c.

(** [str.isspace] on the ASCII range: TAB, LF, VT, FF, CR, the four
    separators FS, GS, RS, US, and the space. *)
Definition is_space (c : ascii) : bool :=
  let n := code c in
  ((9 <=? n) && (n <=? 13) || (28 <=? n) && (n <=? 32))%N.

Definition upper_char (c : ascii) : ascii :=
  let n := code c in
  if ((97 <=? n) && (n <=? 122))%N then ascii_of_N (n - 32) else c.

Definition lower_char (c : ascii) : ascii :=
  let n := code c in
  if ((65 <=? n) && (n <=? 90))%N then ascii_of_N (n + 32) else c.

Definition chars (s : string) : list ascii := list_ascii_of_string s.
Definition str (l : list ascii) : string := string_of_list_ascii l.

(** [s.upper()] and [s.lower()]. *)
Definition upper (s : string) : string := str (map upper_char (chars s)).
Definition lower (s : string) : string := str (map lower_char (chars s)).

(** [s.split()]: the maximal runs of characters that are not white space.
    [scan s] is the run that starts at the head of [s] (empty when [s]
    starts with white space) and the runs after it. *)
Definition push_word (w : list ascii) (ws : list (list ascii)) :=
  match w with [] => ws | _ :: _ => w :: ws end.

Fixpoint scan (s : list ascii) : list ascii * list (list ascii) :=
  match s with
  | [] => ([], [])
  | c :: s' =>
      let '(w, ws) := scan s' in
      if is_space c then ([], push_word w ws) else (c :: w, ws)
  end.

Definition split_chars (s : list ascii) : list (list ascii) :=
  let '(w, ws) := scan s in push_word w ws.

Definition split (s : string) : list string := map str (split_chars (chars s)).

(** [s.strip()]. *)
Fixpoint lstrip_chars (s : list ascii) : list ascii :=
  match s with
  | c :: s' => if is_space c then lstrip_chars s' else s
  | [] => []
  end.

Definition strip (s : string) : string :=
  str (rev (lstrip_chars (rev (lstrip_chars (chars s))))).

End Text.

(** ** Table Filter *)

Module Raw.

(** A scraped row, read at the five columns the script uses.  For a table
    that lacks one of them the fields are never read: the table is
    skipped. *)
Record row := {
  R : option string;
  Name : string;
  Age : Z;
  Pos : string;
  Club : string
}.

Record table := {
  columns : list string;
  rows : list row
}.

End Raw.

Definition needed : gset string := {[ "R"; "Name"; "Age"; "Pos"; "Club" ]}.

Definition is_wonderkids_table (t : Raw.table) : bool :=
  bool_decide (needed ⊆ list_to_set (Raw.columns t))
  && (0 <? length (Raw.rows t))%nat.

(** ** Position Classifier *)

(** [re.sub(r"[()/,]", " ", s)]: each of the four characters becomes a
    space. *)
Definition is_punct (c : ascii) : bool :=
  let n := Text.code c in ((n =? 40) || (n =? 41) || (n =? 47) || (n =? 44))%N.

Definition sub_punct_char (c : ascii) : ascii :=
  if is_punct c then " "%char else c.

Definition re_sub_punct (s : string) : string :=
  Text.str (map sub_punct_char (Text.chars s)).

Definition tokenise_pos (s : string) : gset string :=
  let s := Text.upper s in
  let s := re_sub_punct s in
  let toks : gset string := list_to_set (Text.split s) in
  toks.

(** *** The classifier on any Python string

    [tokenise_pos] above reads ASCII text.  Here a Python [str] is the list
    of its code points, and the two functions of Python that depend on the
    Unicode tables are variables: [isspace c] says that the character [c]
    is white space (the test of [str.isspace], which [str.split] uses) and
    [str_upper] is [str.upper]. *)

Module Unicode.

Section Tables.

Variable isspace : N -> bool.
Variable str_upper : list N -> list N.

(** [s.split()] *)
Definition push_word (w : list N) (ws : list (list N)) :=
  match w with [] => ws | _ :: _ => w :: ws end.

Fixpoint scan (s : list N) : list N * list (list N) :=
  match s with
  | [] => ([], [])
  | c :: s' =>
      let '(w, ws) := scan s' in
      if isspace c then ([], push_word w ws) else (c :: w, ws)
  end.

Definition split (s : list N) : list (list N) :=
  let '(w, ws) := scan s in push_word w ws.

(** [re.sub(r"[()/,]", " ", s)] *)
Definition is_punct (c : N) : bool :=
  ((c =? 40) || (c =? 41) || (c =? 47) || (c =? 44))%N.

Definition sub_punct_char (c : N) : N := if is_punct c then 32%N else c.

Definition re_sub_punct (s : list N) : list N := map sub_punct_char s.

Definition tokenise_pos (s : list N) : gset (list N) :=
  let s := str_upper s in
  let s := re_sub_punct s in
  let toks : gset (list N) := list_to_set (split s) in
  toks.

(** The separators of a position string. *)
Definition is_separator (c : N) : bool := isspace c || is_punct c.

End Tables.

End Unicode.

(** The code points of an ASCII string. *)
Definition codepoints (s : string) : list N := map Text.code (Text.chars s).

(** ** Category Assigner *)

Inductive category := Goalkeeper | Defender | Midfielder | Forward.

#[global] Instance category_eq_dec : EqDecision category.
Proof. solve_decision. Defined.

(** The [counts] dictionary: its four keys are fixed, so it is a total
    function on them. *)
Definition counts_t := category -> nat.

Definition counts0 : counts_t := fun _ => 0%nat.

(** [counts[k] += 1] *)
Definition incr (k : category) (counts : counts_t) : counts_t :=
  fun k' => if decide (k' = k) then S (counts k') else counts k'.

(** The truth value of a Python set: not empty. *)
Definition truthy (s : gset string) : bool := bool_decide (s ≠ ∅).

(** One turn of the loop over [df["Pos"].astype(str)]. *)
Definition count_row (counts : counts_t) (p : string) : counts_t :=
  let toks := tokenise_pos p in
  let counts := if bool_decide ("GK" ∈ toks) then incr Goalkeeper counts else counts in
  let counts := if truthy ({[ "D"; "WB"; "FB" ]} ∩ toks) then incr Defender counts else counts in
  let counts := if truthy ({[ "DM"; "M"; "AM"; "W" ]} ∩ toks) then incr Midfielder counts else counts in
  let counts := if truthy ({[ "ST"; "CF"; "FW" ]} ∩ toks) then incr Forward counts else counts in
  counts.

Definition order : list category := [Goalkeeper; Defender; Midfielder; Forward].

(** [l.index(k)]: the first position of [k] ([None]: ValueError). *)
Fixpoint index {A} `{EqDecision A} (k : A) (l : list A) : option Z :=
  match l with
  | [] => None
  | x :: l' => if decide (x = k) then Some 0%Z else Z.succ <$> index k l'
  end.

(** Python's order on pairs. *)
Definition pair_gt (a b : Z * Z) : bool :=
  ((fst b <? fst a) || (fst a =? fst b) && (snd b <? snd a))%Z.

(** [max(l, key=key)]: the first element whose key no later key exceeds
    ([None]: ValueError on an empty list). *)
Definition py_max {A} (key : A -> Z * Z) (l : list A) : option A :=
  match l with
  | [] => None
  | x :: l' =>
      Some (fold_left (fun best y => if pair_gt (key y) (key best) then y else best) l' x)
  end.

Definition tally (pos_column : list string) : counts_t :=
  fold_left count_row pos_column counts0.

(** [table_majority_category(df)]; the argument is the column
    [df["Pos"].astype(str)], the only part of the frame the function reads. *)
Definition table_majority_category (pos_column : list string) : category :=
  let counts := tally pos_column in
  let key k := (Z.of_nat (counts k), (- default 0 (index k order))%Z) in
  default Goalkeeper (py_max key order).

(** ** Loading the tables *)

Record PlayerRecord := {
  Rating : option Z;
  Name : string;
  Age : Z;
  Pos : string;
  Club : string;
  Category : category
}.

Record DataFrame := {
  columns : list string;
  rows : list PlayerRecord
}.

(** The column index through lines 50 to 55: [t[[...]]] keeps the listed
    columns in the listed order, [rename] maps the names, and
    [t["Category"] = ...] appends the column unless it exists. *)
Definition select_columns (names : list string) : list string := names.

Definition rename_columns (old new : string) (cols : list string) : list string :=
  map (fun c => if decide (c = old) then new else c) cols.

Definition assign_column (name : string) (cols : list string) : list string :=
  if decide (name ∈ cols) then cols else cols ++ [name].

Definition loaded_columns : list string :=
  assign_column "Category"
    (rename_columns "R" "Rating"
       (select_columns ["R"; "Name"; "Age"; "Pos"; "Club"])).

(** [dropna(subset=["R"])] *)
Definition dropna_R (l : list Raw.row) : list Raw.row :=
  filter (fun r => is_Some (Raw.R r)) l.

Section Load.

(** [pd.to_numeric(_, errors="coerce")] on one present cell: its number,
    or NaN when the text is not a number. *)
Variable to_numeric : string -> option Z.

Definition coerce (c : option string) : option Z :=
  match c with
  | Some s => to_numeric s
  | None => None
  end.

Definition label_row (cat : category) (r : Raw.row) : PlayerRecord :=
  {| Rating := coerce (Raw.R r);
     Name := Raw.Name r;
     Age := Raw.Age r;
     Pos := Raw.Pos r;
     Club := Raw.Club r;
     Category := cat |}.

(** The body of the loop for a table that passed the filter. *)
Definition prepare (t : Raw.table) : DataFrame :=
  let kept := dropna_R (Raw.rows t) in
  let cat := table_majority_category (map Raw.Pos kept) in
  {| columns := loaded_columns;
     rows := map (label_row cat) kept |}.

Fixpoint load_tables (tables : list Raw.table) : list DataFrame :=
  match tables with
  | [] => []
  | t :: tables' =>
      if negb (is_wonderkids_table t) then load_tables tables'
      else prepare t :: load_tables tables'
  end.

End Load.

(** ** Dataset Merger *)

(** [pd.concat(dfs, ignore_index=True)]: the rows of the frames one after
    the other; the columns are those of the frames in order of first
    appearance. *)
Definition union_columns (a b : list string) : list string :=
  a ++ filter (fun c => c ∉ a) b.

Definition pd_concat (dfs : list DataFrame) : DataFrame :=
  {| columns := fold_left union_columns (map columns dfs) [];
     rows := concat (map rows dfs) |}.

Definition identity (r : PlayerRecord) : string * string * string :=
  (Name r, Club r, Pos r).

(** [drop_duplicates(subset=...)] with the default [keep="first"]: a row is
    dropped when an earlier row has the same values in the subset. *)
Fixpoint drop_seen {K} `{EqDecision K} (key : PlayerRecord -> K)
    (seen : list K) (l : list PlayerRecord) : list PlayerRecord :=
  match l with
  | [] => []
  | r :: l' =>
      if decide (key r ∈ seen) then drop_seen key seen l'
      else r :: drop_seen key (key r :: seen) l'
  end.

Definition drop_duplicates {K} `{EqDecision K} (key : PlayerRecord -> K)
    (df : DataFrame) : DataFrame :=
  {| columns := columns df; rows := drop_seen key [] (rows df) |}.

Definition merge (dfs : list DataFrame) : DataFrame :=
  drop_duplicates identity (pd_concat dfs).

(** Lines 44 to 63: [None] is the halt after [st.error] when no table
    passed the filter. *)
Definition dataset (to_numeric : string -> option Z)
    (tables : list Raw.table) : option DataFrame :=
  let dfs := load_tables to_numeric tables in
  match dfs with
  | [] => None
  | _ :: _ => Some (merge dfs)
  end.

(** ** Filter/Export Layer *)

(** The widgets' values: the age slider's pair, the rating slider's value,
    the clubs picked in the multi-select and the text typed in the search
    box. *)
Record FilterConfig := {
  age_range : Z * Z;
  rating_filter : Z;
  selected_clubs : list string;
  name_input : string
}.

(** Line 84: [text_input(...).strip().lower()] *)
Definition search_name (cfg : FilterConfig) : string :=
  Text.lower (Text.strip (name_input cfg)).

(** [Series.str.contains(pat)] keeps pandas' default [regex=True]: [pat] is
    a regular expression, searched with [re.search].  The fragment of the
    syntax of [re] modelled here: a character that is none of
    [. ^ $ * + ? { } [ ] \ | ( )] stands for itself and [.] stands for any
    character but the line feed.  [re_compile] is [None] on every other
    pattern (Python rejects some of them with [re.error] and gives the
    others a meaning outside this fragment). *)
Inductive atom := Lit (c : ascii) | AnyChar.

Definition is_meta (c : ascii) : bool :=
  bool_decide (Text.code c ∈ [46; 94; 36; 42; 43; 63; 123; 125; 91; 93; 92; 124; 40; 41]%N).

Fixpoint re_compile_chars (p : list ascii) : option (list atom) :=
  match p with
  | [] => Some []
  | c :: p' =>
      if (Text.code c =? 46)%N then cons AnyChar <$> re_compile_chars p'
      else if is_meta c then None
      else cons (Lit c) <$> re_compile_chars p'
  end.

Definition re_compile (pat : string) : option (list atom) :=
  re_compile_chars (Text.chars pat).

Definition atom_matches (a : atom) (c : ascii) : bool :=
  match a with
  | Lit d => bool_decide (c = d)
  | AnyChar => negb (Text.code c =? 10)%N
  end.

(** The pattern matches at the head of the text. *)
Fixpoint match_here (re : list atom) (s : list ascii) : bool :=
  match re, s with
  | [], _ => true
  | a :: re', c :: s' => atom_matches a c && match_here re' s'
  | _ :: _, [] => false
  end.

(** [re.search]: the pattern matches at some position of the text. *)
Fixpoint search_chars (re : list atom) (s : list ascii) : bool :=
  match_here re s ||
  match s with
  | [] => false
  | _ :: s' => search_chars re s'
  end.

Definition re_search (re : list atom) (s : string) : bool :=
  search_chars re (Text.chars s).

(** [df[mask]] *)
Definition select_rows (mask : PlayerRecord -> bool) (df : DataFrame) : DataFrame :=
  {| columns := columns df; rows := List.filter mask (rows df) |}.

(** [Rating >= rating_filter]: a comparison with NaN is false. *)
Definition rating_ge (r : option Z) (m : Z) : bool :=
  match r with
  | Some z => (m <=? z)%Z
  | None => false
  end.

(** [Club.isin(selected_clubs)] *)
Definition isin (c : string) (l : list string) : bool := bool_decide (c ∈ l).

(** Lines 87 to 93.  The truth value of a list or of a string is that it
    is not empty. *)
Definition filtered (cfg : FilterConfig) (df : DataFrame) : option DataFrame :=
  let filtered := df in
  let filtered :=
    select_rows (fun r => (fst (age_range cfg) <=? Age r)%Z
                          && (Age r <=? snd (age_range cfg))%Z) filtered in
  let filtered := select_rows (fun r => rating_ge (Rating r) (rating_filter cfg)) filtered in
  let filtered :=
    if bool_decide (selected_clubs cfg ≠ [])
    then select_rows (fun r => isin (Club r) (selected_clubs cfg)) filtered
    else filtered in
  if bool_decide (search_name cfg ≠ "")
  then re ← re_compile (search_name cfg);
       Some (select_rows (fun r => re_search re (Text.lower (Name r))) filtered)
  else Some filtered.

(** *** The tabs *)

(** The order [sort_values("Rating", ascending=False)] produces: numbers
    from the largest down, NaN last. *)
Definition rating_before (a b : option Z) : Prop :=
  match a, b with
  | Some x, Some y => (y <= x)%Z
  | _, None => True
  | None, Some _ => False
  end.

Definition by_rating_desc (a b : PlayerRecord) : Prop :=
  rating_before (Rating a) (Rating b).

(** What pandas promises of [sort_values] under its default
    [kind="quicksort"]: the rows are those given, in sorted order.  The
    order of rows with equal keys is not part of it (only the kinds
    [mergesort] and [stable] are stable). *)
Definition sort_contract (sort : list PlayerRecord -> list PlayerRecord) : Prop :=
  forall l, Permutation (sort l) l /\ Sorted by_rating_desc (sort l).

Section Tabs.

Variable sort_values_rating_desc : list PlayerRecord -> list PlayerRecord.

(** The frame [sub] of [render_tab]. *)
Definition render_tab (cat_label : category) (filtered : DataFrame) : DataFrame :=
  let sub := select_rows (fun r => bool_decide (Category r = cat_label)) filtered in
  let sub := {| columns := columns sub; rows := sort_values_rating_desc (rows sub) |} in
  {| columns := columns sub; rows := take 100 (rows sub) |}.

End Tabs.

(** *** [sort_values] as pandas and numpy compute it

    [DataFrame.sort_values] on one column takes the rows at the positions
    [nargsort] returns, and [nargsort] sorts the keys that are not NaN with
    numpy's [argsort(kind="quicksort")].  [Numpy.argsort] is numpy's scalar
    routine [aquicksort_] of [npysort/quicksort.cpp]; [a] is the array
    [tosort] of positions, [v] the keys, and the pointers of the C code are
    positions of [a].  (Where numpy is built with a vectorised sort for the
    processor, it calls that instead; it gives no order to equal keys
    either.) *)

Module Numpy.

Section Argsort.

Variable v : list Z.

Definition at_ (a : list nat) (p : nat) : nat := nth p a 0%nat.

(** [v[*p]] *)
Definition key (a : list nat) (p : nat) : Z := nth (at_ a p) v 0%Z.

(** [INTP_SWAP] of the entries at [p] and [q]. *)
Definition swap (a : list nat) (p q : nat) : list nat :=
  <[q := at_ a p]> (<[p := at_ a q]> a).

(** The median of three: the three conditional swaps that open a
    partition. *)
Definition median3 (a : list nat) (pl pm pr : nat) : list nat :=
  let a := if (key a pm <? key a pl)%Z then swap a pm pl else a in
  let a := if (key a pr <? key a pm)%Z then swap a pr pm else a in
  let a := if (key a pm <? key a pl)%Z then swap a pm pl else a in
  a.

(** [do ++pi; while (v[*pi] < vp)] *)
Fixpoint scan_up (fuel : nat) (a : list nat) (vp : Z) (pi : nat) : nat :=
  match fuel with
  | O => pi
  | S fuel' =>
      let pi := S pi in
      if (key a pi <? vp)%Z then scan_up fuel' a vp pi else pi
  end.

(** [do --pj; while (vp < v[*pj])] *)
Fixpoint scan_down (fuel : nat) (a : list nat) (vp : Z) (pj : nat) : nat :=
  match fuel with
  | O => pj
  | S fuel' =>
      let pj := pred pj in
      if (vp <? key a pj)%Z then scan_down fuel' a vp pj else pj
  end.

(** The [for (;;)] loop of the partition; it returns the array and [pi]. *)
Fixpoint hoare (fuel : nat) (a : list nat) (vp : Z) (pi pj : nat) : list nat * nat :=
  match fuel with
  | O => (a, pi)
  | S fuel' =>
      let pi := scan_up (length a) a vp pi in
      let pj := scan_down (length a) a vp pj in
      if (pj <=? pi)%nat then (a, pi) else hoare fuel' (swap a pi pj) vp pi pj
  end.

Definition partition (a : list nat) (pl pr : nat) : list nat * nat :=
  let pm := (pl + Nat.div2 (pr - pl))%nat in
  let a := median3 a pl pm pr in
  let vp := key a pm in
  let pj := pred pr in
  let a := swap a pm pj in
  let '(a, pi) := hoare (length a) a vp pl pj in
  (swap a pi (pred pr), pi).

(** The insertion sort of a short range:
    [while (pj > pl && vp < v[*pk]) *pj-- = *pk--; *pj = vi]. *)
Fixpoint shift (fuel : nat) (a : list nat) (pl vi : nat) (vp : Z) (pj : nat) : list nat :=
  match fuel with
  | O => <[pj := vi]> a
  | S fuel' =>
      if (pl <? pj)%nat && (vp <? key a (pred pj))%Z
      then shift fuel' (<[pj := at_ a (pred pj)]> a) pl vi vp (pred pj)
      else <[pj := vi]> a
  end.

Fixpoint insertion (fuel : nat) (a : list nat) (pl pi pr : nat) : list nat :=
  match fuel with
  | O => a
  | S fuel' =>
      if (pi <=? pr)%nat
      then let vi := at_ a pi in
           let a := shift (length a) a pl vi (nth vi v 0%Z) pi in
           insertion fuel' a pl (S pi) pr
      else a
  end.

(** [aheapsort_] on the [n] positions from [pl], taken when the depth
    limit is used up.  The entry [a[k]] of the C code, which counts from
    1, is the position [hk pl k]. *)
Definition hk (pl k : nat) : nat := (pl + k - 1)%nat.

Fixpoint sift (fuel : nat) (a : list nat) (pl n tmp i j : nat) : list nat :=
  match fuel with
  | O => <[hk pl i := tmp]> a
  | S fuel' =>
      if (j <=? n)%nat then
        let j := if (j <? n)%nat && (key a (hk pl j) <? key a (hk pl (S j)))%Z
                 then S j else j in
        if (nth tmp v 0%Z <? key a (hk pl j))%Z
        then sift fuel' (<[hk pl i := at_ a (hk pl j)]> a) pl n tmp j (j + j)
        else <[hk pl i := tmp]> a
      else <[hk pl i := tmp]> a
  end.

Fixpoint heapify (l : nat) (a : list nat) (pl n : nat) : list nat :=
  match l with
  | O => a
  | S l' =>
      let a := sift (length a) a pl n (at_ a (hk pl l)) l (2 * l) in
      heapify l' a pl n
  end.

Fixpoint extract (fuel : nat) (a : list nat) (pl n : nat) : list nat :=
  match fuel with
  | O => a
  | S fuel' =>
      if (1 <? n)%nat then
        let tmp := at_ a (hk pl n) in
        let a := <[hk pl n := at_ a (hk pl 1)]> a in
        let n := pred n in
        let a := sift (length a) a pl n tmp 1 2 in
        extract fuel' a pl n
      else a
  end.

Definition aheapsort (a : list nat) (pl n : nat) : list nat :=
  let a := heapify (Nat.div2 n) a pl n in
  extract (length a) a pl n.

(** The outer loop on the range from [pl] to [pr].  A range of more than
    17 positions is partitioned, the smaller part is sorted next and the
    larger part is pushed on the stack with the depth left; [popped] says
    that the range comes from the stack (or is the first one), where the
    depth is checked.  The two parts share no position, so the order in
    which they are sorted does not show in the result. *)
Fixpoint aquicksort_range (fuel : nat) (popped : bool) (a : list nat)
    (pl pr : nat) (cdepth : Z) : list nat :=
  match fuel with
  | O => a
  | S fuel' =>
      if popped && (cdepth <? 0)%Z then aheapsort a pl (pr - pl + 1)
      else if (16 <? pr - pl)%nat then
        let '(a, pi) := partition a pl pr in
        let cdepth := (cdepth - 1)%Z in
        if (pi - pl <? pr - pi)%nat then
          let a := aquicksort_range fuel' false a pl (pred pi) cdepth in
          aquicksort_range fuel' true a (S pi) pr cdepth
        else
          let a := aquicksort_range fuel' false a (S pi) pr cdepth in
          aquicksort_range fuel' true a pl (pred pi) cdepth
      else insertion (length a) a pl (S pl) pr
  end.

(** [v.argsort(kind="quicksort")]: the positions 0 to [num - 1], sorted by
    their keys; the depth limit is twice the position of the highest bit
    of [num]. *)
Definition argsort : list nat :=
  let num := length v in
  match num with
  | O => []
  | S _ =>
      aquicksort_range (S num) true (seq 0 num) 0 (pred num)
        (2 * Z.log2 (Z.of_nat num))
  end.

End Argsort.

End Numpy.

(** [nargsort(items, kind="quicksort", ascending=False, na_position="last")]
    of [pandas/core/sorting.py]: the keys that are not NaN are reversed
    with their positions, sorted from the smallest up, and the result is
    reversed; the positions of the NaN keys follow. *)
Definition nargsort_descending (items : list (option Z)) : list nat :=
  let idx := seq 0 (length items) in
  let non_nan_idx := List.filter (fun i => bool_decide (is_Some (mjoin (items !! i)))) idx in
  let nan_idx := List.filter (fun i => bool_decide (mjoin (items !! i) = None)) idx in
  let non_nans := omap (fun i => mjoin (items !! i)) non_nan_idx in
  let non_nans := rev non_nans in
  let non_nan_idx := rev non_nan_idx in
  let indexer := map (fun j => nth j non_nan_idx 0%nat) (Numpy.argsort non_nans) in
  let indexer := rev indexer in
  indexer ++ nan_idx.

(** [rows.sort_values("Rating", ascending=False)]: the rows taken at the
    positions of [nargsort]. *)
Definition sort_values_quicksort (l : list PlayerRecord) : list PlayerRecord :=
  omap (fun i => l !! i) (nargsort_descending (map Rating l)).

(** *** The exports *)

(** A written value: a number, a text, or the empty cell of a NaN. *)
Inductive cell := Num (z : Z) | Txt (s : string) | Empty.

Definition category_name (k : category) : string :=
  match k with
  | Goalkeeper => "Goalkeeper"
  | Defender => "Defender"
  | Midfielder => "Midfielder"
  | Forward => "Forward"
  end.

(** The value of a row in a column of the frame. *)
Definition cell_of (r : PlayerRecord) (col : string) : cell :=
  if decide (col = "Rating") then from_option Num Empty (Rating r)
  else if decide (col = "Name") then Txt (Name r)
  else if decide (col = "Age") then Num (Age r)
  else if decide (col = "Pos") then Txt (Pos r)
  else if decide (col = "Club") then Txt (Club r)
  else if decide (col = "Category") then Txt (category_name (Category r))
  else Empty.

(** What an export holds: the header line and a line of values per row.
    The encoding of the lines (the quoting of the CSV text, the container
    of the xlsx file) is pandas' and is not modelled. *)
Record Sheet := {
  header : list string;
  body : list (list cell)
}.

(** [to_csv(index=False)] and [to_excel(output, index=False)]: every column
    of the frame, no index column. *)
Definition write_frame (df : DataFrame) : Sheet :=
  {| header := columns df;
     body := map (fun r => map (cell_of r) (columns df)) (rows df) |}.

Definition to_csv (df : DataFrame) : Sheet := write_frame df.
Definition to_excel (df : DataFrame) : Sheet := write_frame df.

(** ** Vocabulary of the statements *)

Section Runs.

(** The characters are [ascii] for the strings of [Text] and code points
    for those of [Unicode]. *)
Context {A : Type}.
Variable sep : A -> bool.

Definition ends_with_sep (pre : list A) : Prop :=
  pre = [] \/ exists p c, pre = p ++ [c] /\ sep c = true.

Definition starts_with_sep (post : list A) : Prop :=
  post = [] \/ exists c p, post = c :: p /\ sep c = true.

Definition sep_free (t : list A) : Prop := Forall (fun c => sep c = false) t.

(** [t] stands between [pre] and [post] in [s], is not empty, holds no
    separator and cannot be extended on either side. *)
Definition run_at (s pre t post : list A) : Prop :=
  s = pre ++ t ++ post /\ t <> [] /\ sep_free t /\
  ends_with_sep pre /\ starts_with_sep post.

Definition maximal_run (s t : list A) : Prop :=
  exists pre post, run_at s pre t post.

End Runs.

(** The separators of a position string: white space and the four
    punctuation characters. *)
Definition is_separator (c : ascii) : bool := Text.is_space c || is_punct c.

(** The tokens that count for a category, and the test a row passes to
    count for it. *)
Definition role_tokens (k : category) : list string :=
  match k with
  | Goalkeeper => ["GK"]
  | Defender => ["D"; "WB"; "FB"]
  | Midfielder => ["DM"; "M"; "AM"; "W"]
  | Forward => ["ST"; "CF"; "FW"]
  end.

Definition hits (k : category) (p : string) : Prop :=
  Exists (fun t => t ∈ tokenise_pos p) (role_tokens k).

#[global] Instance hits_dec k p : Decision (hits k p).
Proof. unfold hits. apply _. Defined.

(** The number of rows of a column that count for a category. *)
Definition hit_count (k : category) (pos_column : list string) : nat :=
  length (filter (hits k) pos_column).








(** The text is ASCII: every character has a code below 128.  On such
    text the functions of [Text] are Python's. *)
Definition ascii_text (s : string) : Prop :=
  Forall (fun c => (Text.code c < 128)%N) (Text.chars s).

(** The rows of a slice with equal ratings stand in the order they have
    in the view. *)
Definition keeps_view_order (view slice : list PlayerRecord) : Prop :=
  forall v, filter (fun r => Rating r = v) slice
            `sublist_of` filter (fun r => Rating r = v) view.

(** A sort that meets [sort_contract] and is not stable: insertion from the
    right, each row going behind the rows of equal rating. *)
Definition strictly_better (x y : PlayerRecord) : bool :=
  match Rating x, Rating y with
  | Some a, Some b => (b <? a)%Z
  | Some _, None => true
  | None, _ => false
  end.

Fixpoint insert_after_ties (x : PlayerRecord) (l : list PlayerRecord) : list PlayerRecord :=
  match l with
  | [] => [x]
  | y :: l' => if strictly_better x y then x :: l else y :: insert_after_ties x l'
  end.

Definition sort_ties_reversed (l : list PlayerRecord) : list PlayerRecord :=
  fold_right insert_after_ties [] l.

(** ** Sample data *)

Definition bob : PlayerRecord :=
  {| Rating := Some 80%Z; Name := "Bob"; Age := 18%Z; Pos := "ST"; Club := "Ajax";
     Category := Forward |}.

Definition ann : PlayerRecord :=
  {| Rating := Some 80%Z; Name := "Ann"; Age := 17%Z; Pos := "ST (C)"; Club := "Porto";
     Category := Forward |}.

Definition sample_dataset : DataFrame :=
  {| columns := loaded_columns; rows := [bob; ann] |}.

Definition sample_config (text : string) : FilterConfig :=
  {| age_range := (15, 21)%Z; rating_filter := 70%Z; selected_clubs := [];
     name_input := text |}.

(** Tables for the examples: those of Python on the ASCII range, with no
    white space and no letter beyond it. *)
Definition isspace_ascii (c : N) : bool :=
  (c <? 128)%N && Text.is_space (ascii_of_N c).

Definition upper_ascii (s : list N) : list N :=
  map (fun c => if (c <? 128)%N then Text.code (Text.upper_char (ascii_of_N c)) else c) s.

(** Twenty forwards of one rating, in the order of the view. *)
Definition tied_forward (name : string) : PlayerRecord :=
  {| Rating := Some 80%Z; Name := name; Age := 18%Z; Pos := "ST"; Club := "Ajax";
     Category := Forward |}.

Definition tied_names : list string :=
  [ "P01"; "P02"; "P03"; "P04"; "P05"; "P06"; "P07"; "P08"; "P09"; "P10";
    "P11"; "P12"; "P13"; "P14"; "P15"; "P16"; "P17"; "P18"; "P19"; "P20" ].

Definition tied_view : DataFrame :=
  {| columns := loaded_columns; rows := map tied_forward tied_names |}.

(** A reading of numbers for the examples: the unsigned decimal integers.
    pandas reads more (signs, decimals, exponents); the statements below
    hold for any reading. *)
Fixpoint digits_value (acc : Z) (l : list ascii) : option Z :=
  match l with
  | [] => Some acc
  | c :: l' =>
      let n := Text.code c in
      if ((48 <=? n) && (n <=? 57))%N
      then digits_value (10 * acc + Z.of_N (n - 48)) l'
      else None
  end.

Definition to_numeric_digits (s : string) : option Z :=
  match Text.chars s with
  | [] => None
  | l => digits_value 0 l
  end.

Definition sample_table : Raw.table :=
  {| Raw.columns := ["#"; "R"; "Name"; "Age"; "Pos"; "Club"];
     Raw.rows := [ Raw.Build_row (Some "80") "Bob" 18 "ST" "Ajax";
                   Raw.Build_row None "Cid" 19 "GK" "Lyon";
                   Raw.Build_row (Some "n/a") "Dan" 17 "AM (C), ST" "Genk" ] |}.

(** ** The sidebar *)

(** [Series.min()] and [Series.max()]: NaN values are skipped, and the
    result is NaN when no value is left. *)
Fixpoint series_min (l : list (option Z)) : option Z :=
  match l with
  | [] => None
  | x :: l' =>
      match x, series_min l' with
      | Some a, Some b => Some (Z.min a b)
      | Some a, None => Some a
      | None, m => m
      end
  end.

Fixpoint series_max (l : list (option Z)) : option Z :=
  match l with
  | [] => None
  | x :: l' =>
      match x, series_max l' with
      | Some a, Some b => Some (Z.max a b)
      | Some a, None => Some a
      | None, m => m
      end
  end.

Record Sliders := {
  min_age : Z;
  max_age : Z;
  min_rating : Z;
  max_rating : Z
}.

(** [int(x)] of a number: its integer part, towards zero.  [int] of a
    NaN raises ValueError, which ends the script: [None]. *)
Definition py_int (x : option QArith_base.Q) : option Z :=
  (fun q => Z.quot (QArith_base.Qnum q) (Z.pos (QArith_base.Qden q))) <$> x.

(** The ages and ratings of this model are whole numbers; [number] is the
    value [int] is given. *)
Definition number (x : option Z) : option QArith_base.Q :=
  QArith_base.inject_Z <$> x.

(** Lines 71, 75 and 76: the bounds of the two sliders. *)
Definition slider_bounds (df : DataFrame) : option Sliders :=
  lo ← py_int (number (series_min (map (fun r => Some (Age r)) (rows df))));
  hi ← py_int (number (series_max (map (fun r => Some (Age r)) (rows df))));
  rlo ← py_int (number (series_min (map Rating (rows df))));
  rhi ← py_int (number (series_max (map Rating (rows df))));
  Some {| min_age := lo; max_age := hi; min_rating := rlo; max_rating := rhi |}.

(** [df["Club"].unique()]: the values in the order they first appear. *)
Fixpoint unique_from (seen l : list string) : list string :=
  match l with
  | [] => []
  | x :: l' =>
      if decide (x ∈ seen) then unique_from seen l'
      else x :: unique_from (x :: seen) l'
  end.

Definition unique (l : list string) : list string := unique_from [] l.

(** [sorted(l)] on strings: ascending, equal values in their order. *)
Fixpoint insert_sorted (x : string) (l : list string) : list string :=
  match l with
  | [] => [x]
  | y :: l' => if String.leb x y then x :: l else y :: insert_sorted x l'
  end.

Definition sorted (l : list string) : list string :=
  fold_right insert_sorted [] l.

(** Line 80: the choices of the club multi-select. *)
Definition clubs (df : DataFrame) : list string :=
  sorted (unique (map Club (rows df))).

(** The values the widgets give on the first run: each slider its [value]
    argument (the whole age range, the lowest rating), the multi-select no
    club, the text input the empty text. *)
Definition initial_config (df : DataFrame) : option FilterConfig :=
  b ← slider_bounds df;
  Some {| age_range := (min_age b, max_age b);
          rating_filter := min_rating b;
          selected_clubs := [];
          name_input := "" |}.

(** ** What a tab shows *)

(** [df[[names]]]: the listed columns, in the listed order; KeyError
    ([None]) when a name is no column of the frame. *)
Definition getitem_columns (names : list string) (df : DataFrame) : option DataFrame :=
  if decide (Forall (fun c => c ∈ columns df) names)
  then Some {| columns := names; rows := rows df |}
  else None.

(** [df.empty]: an axis of the frame has length 0. *)
Definition df_empty (df : DataFrame) : bool :=
  bool_decide (rows df = []) || bool_decide (columns df = []).

(** The bars of [px.bar(sub, x="Name", y="Rating", color="Club")]. *)
Record Chart := {
  chart_title : string;
  bars : list (string * option Z * string)
}.

Record Tab := {
  subheader : string;
  table : Sheet;
  chart : option Chart
}.

Section TabWidgets.

Variable sort_values_rating_desc : list PlayerRecord -> list PlayerRecord.

(** Lines 99 to 108: what [render_tab] hands to the page. *)
Definition render_tab_widgets (cat_label : category) (filtered : DataFrame)
    : option Tab :=
  let sub := render_tab sort_values_rating_desc cat_label filtered in
  shown ← getitem_columns ["Rating"; "Name"; "Age"; "Pos"; "Club"] sub;
  Some {| subheader := "Top " +:+ category_name cat_label +:+ "s";
          table := write_frame shown;
          chart :=
            if negb (df_empty sub)
            then Some {| chart_title :=
                           "Top " +:+ category_name cat_label +:+ "s by Rating";
                         bars := map (fun r => (Name r, Rating r, Club r)) (rows sub) |}
            else None |}.

(** Lines 111 to 114: the four tabs, in the order of the calls. *)
Definition render_tabs (filtered : DataFrame) : list (option Tab) :=
  map (fun k => render_tab_widgets k filtered)
      [Goalkeeper; Defender; Midfielder; Forward].

End TabWidgets.

(** The test of the name column that a configuration applies: [None] when
    its pattern is outside the fragment modelled. *)
Definition name_mask (cfg : FilterConfig) : option (PlayerRecord -> bool) :=
  if bool_decide (search_name cfg <> "")
  then re ← re_compile (search_name cfg);
       Some (fun r => re_search re (Text.lower (Name r)))
  else Some (fun _ => true).

(** The three tests before it. *)
Definition base_mask (cfg : FilterConfig) (r : PlayerRecord) : bool :=
  (fst (age_range cfg) <=? Age r)%Z && (Age r <=? snd (age_range cfg))%Z
  && rating_ge (Rating r) (rating_filter cfg)
  && (bool_decide (selected_clubs cfg = []) || bool_decide (Club r ∈ selected_clubs cfg)).

(** * Properties *)

(** ** Strings *)

Lemma str_chars s : Text.str (Text.chars s) = s.
Proof. apply string_of_list_ascii_of_string. Qed.

Lemma chars_str l : Text.chars (Text.str l) = l.
Proof. apply list_ascii_of_string_of_list_ascii. Qed.

Lemma chars_inj s1 s2 : Text.chars s1 = Text.chars s2 -> s1 = s2.
Proof. intros H. rewrite <- (str_chars s1), <- (str_chars s2). now f_equal. Qed.

Lemma ends_with_sep_cons {A} (sep : A -> bool) c pre :
  pre <> [] -> ends_with_sep sep (c :: pre) <-> ends_with_sep sep pre.
Proof.
  intros Hne. unfold ends_with_sep. split.
  - intros [H | (p & d & H & Hd)]; [discriminate|].
    right. destruct p as [|e p]; simpl in H.
    + inversion H; subst. contradiction.
    + inversion H; subst. eauto.
  - intros [H | (p & d & H & Hd)]; [contradiction|].
    right. exists (c :: p), d. subst. auto.
Qed.

Lemma ends_with_sep_single {A} (sep : A -> bool) c :
  ends_with_sep sep [c] <-> sep c = true.
Proof.
  unfold ends_with_sep. split.
  - intros [H | (p & d & H & Hd)]; [discriminate|].
    destruct p as [|e p]; simpl in H; inversion H; subst; auto.
    destruct p; discriminate.
  - intros H. right. exists [], c. auto.
Qed.

(** Two runs that start at the same place are the same run. *)
Lemma head_run_unique {A} (sep : A -> bool) w rest t post :
  w ++ rest = t ++ post -> sep_free sep w -> sep_free sep t ->
  starts_with_sep sep rest -> starts_with_sep sep post -> w = t.
Proof.
  revert t. induction w as [|a w IH]; intros t Heq Hw Ht Hr Hp.
  - destruct t as [|b t]; [reflexivity|]. simpl in Heq.
    destruct Hr as [-> | (c & p & -> & Hc)]; [discriminate|].
    inversion Heq; subst. inversion Ht; subst. congruence.
  - destruct t as [|b t]; simpl in Heq.
    + destruct Hp as [-> | (c & p & -> & Hc)]; [discriminate|].
      inversion Heq; subst. inversion Hw; subst. congruence.
    + inversion Heq; subst. inversion Hw; subst. inversion Ht; subst.
      f_equal. eapply IH; eauto.
Qed.

(** [str.split] for any characters: the facts below hold of a [scan] that
    follows the two equations of [Text.scan], and are used for the strings
    of [Text] and for those of [Unicode]. *)
Section ScanRuns.

Context {A : Type} (isspace : A -> bool).
Variable push_word : list A -> list (list A) -> list (list A).
Variable scan : list A -> list A * list (list A).
Hypothesis push_word_nil : forall ws, push_word [] ws = ws.
Hypothesis push_word_cons : forall c w ws, push_word (c :: w) ws = (c :: w) :: ws.
Hypothesis scan_nil : scan [] = ([], []).
Hypothesis scan_cons : forall c s,
  scan (c :: s)
  = let '(w, ws) := scan s in
    if isspace c then ([], push_word w ws) else (c :: w, ws).

Lemma in_push_word_runs t w ws :
  In t (push_word w ws) <-> (w <> [] /\ t = w) \/ In t ws.
Proof.
  destruct w as [|c w]; [rewrite push_word_nil | rewrite push_word_cons];
    simpl; split; intros H.
  - auto.
  - destruct H as [[H _] | H]; [contradiction | auto].
  - destruct H as [<- | H]; [left; split; [discriminate | reflexivity] | auto].
  - destruct H as [[_ ->] | H]; auto.
Qed.

(** [scan] splits off the head run; the later runs are the maximal runs
    that do not start at the head. *)
Lemma scan_runs_spec s :
  forall w ws, scan s = (w, ws) ->
  (exists rest, s = w ++ rest /\ sep_free isspace w
                /\ starts_with_sep isspace rest) /\
  (forall t, In t ws <->
     exists pre post, pre <> [] /\ run_at isspace s pre t post).
Proof.
  induction s as [|c s IH]; intros w ws Hs.
  - rewrite scan_nil in Hs. inversion Hs; subst. split.
    + exists []. repeat split; [constructor | left; reflexivity].
    + intros t. split; [intros [] |].
      intros (pre & post & Hne & Heq & _). destruct pre; [contradiction | discriminate].
  - rewrite scan_cons in Hs.
    destruct (scan s) as [w' ws'] eqn:Hscan.
    destruct (IH w' ws' eq_refl) as [(rest & Hrest & Hfree & Hstart) Hws].
    destruct (isspace c) eqn:Hc; inversion Hs; subst w ws; clear Hs.
    + split.
      * exists (c :: s). repeat split; [constructor | right; eauto].
      * intros t. rewrite in_push_word_runs, Hws. split.
        -- intros [[Hne ->] | (pre & post & Hne & Heq & Ht & Hf & He & Hp)].
           ++ exists [c], rest. split; [discriminate|].
              repeat split; auto.
              ** simpl. now f_equal.
              ** now apply ends_with_sep_single.
           ++ exists (c :: pre), post. split; [discriminate|].
              repeat split; auto.
              ** simpl. now f_equal.
              ** now apply ends_with_sep_cons.
        -- intros (pre & post & Hne & Heq & Ht & Hf & He & Hp).
           destruct pre as [|d pre]; [contradiction|].
           simpl in Heq. inversion Heq; subst d.
           destruct pre as [|e pre].
           ++ left. simpl in *.
              assert (w' = t).
              { apply (head_run_unique isspace w' rest t post); auto.
                now rewrite <- Hrest. }
              subst. auto.
           ++ right. exists (e :: pre), post. split; [discriminate|].
              repeat split; auto.
              refine (proj1 (ends_with_sep_cons _ c (e :: pre) _) He). discriminate.
    + split.
      * exists rest. repeat split; auto.
        -- simpl. now f_equal.
        -- constructor; auto.
      * intros t. rewrite Hws. split.
        -- intros (pre & post & Hne & Heq & Ht & Hf & He & Hp).
           exists (c :: pre), post. split; [discriminate|].
           repeat split; auto.
           ++ simpl. now f_equal.
           ++ now apply ends_with_sep_cons.
        -- intros (pre & post & Hne & Heq & Ht & Hf & He & Hp).
           destruct pre as [|d pre]; [contradiction|].
           simpl in Heq. inversion Heq; subst d.
           destruct pre as [|e pre].
           ++ apply ends_with_sep_single in He. congruence.
           ++ exists (e :: pre), post. split; [discriminate|].
              repeat split; auto.
              refine (proj1 (ends_with_sep_cons _ c (e :: pre) _) He). discriminate.
Qed.

(** The split yields exactly the maximal runs of characters that are not
    white space. *)
Lemma split_runs_spec s t :
  In t (let '(w, ws) := scan s in push_word w ws) <-> maximal_run isspace s t.
Proof.
  destruct (scan s) as [w ws] eqn:Hscan.
  destruct (scan_runs_spec s w ws Hscan) as [(rest & Hrest & Hfree & Hstart) Hws].
  rewrite in_push_word_runs, Hws. split.
  - intros [[Hne ->] | (pre & post & _ & H)].
    + exists [], rest. repeat split; auto. left; reflexivity.
    + exists pre, post. exact H.
  - intros (pre & post & Heq & Ht & Hf & He & Hp).
    destruct pre as [|d pre].
    + left. simpl in Heq.
      assert (w = t).
      { apply (head_run_unique isspace w rest t post); auto.
        now rewrite <- Hrest. }
      subst. auto.
    + right. exists (d :: pre), post. split; [discriminate|].
      repeat split; auto.
Qed.

End ScanRuns.

Lemma in_push_word t w ws :
  In t (Text.push_word w ws) <-> (w <> [] /\ t = w) \/ In t ws.
Proof. now apply in_push_word_runs. Qed.

Lemma scan_spec s :
  forall w ws, Text.scan s = (w, ws) ->
  (exists rest, s = w ++ rest /\ sep_free Text.is_space w
                /\ starts_with_sep Text.is_space rest) /\
  (forall t, In t ws <->
     exists pre post, pre <> [] /\ run_at Text.is_space s pre t post).
Proof. now apply (scan_runs_spec Text.is_space Text.push_word Text.scan). Qed.

(** [split] yields exactly the maximal runs of characters that are not
    white space. *)
Lemma split_chars_spec s t :
  In t (Text.split_chars s) <-> maximal_run Text.is_space s t.
Proof. now apply (split_runs_spec Text.is_space Text.push_word Text.scan). Qed.

Lemma split_codepoints_spec isspace s t :
  In t (Unicode.split isspace s) <-> maximal_run isspace s t.
Proof.
  now apply (split_runs_spec isspace Unicode.push_word (Unicode.scan isspace)).
Qed.

(** ** Position Classifier *)

Section MapSeparators.

Context {A : Type}.
Variables (f : A -> A) (sep1 sep2 : A -> bool).
Hypothesis sep_f : forall c, sep1 (f c) = sep2 c.
Hypothesis f_id : forall c, sep2 c = false -> f c = c.

Lemma ends_with_sep_map l :
  ends_with_sep sep1 (map f l) <-> ends_with_sep sep2 l.
Proof.
  unfold ends_with_sep. split.
  - intros [H | (p & c & H & Hc)].
    + left. now destruct l.
    + right. apply map_eq_app in H as (p0 & l0 & -> & <- & H).
      destruct l0 as [|c0 [|]]; try discriminate.
      inversion H; subst. exists p0, c0. now rewrite <- sep_f.
  - intros [-> | (p & c & -> & Hc)]; [now left|].
    right. exists (map f p), (f c). rewrite map_app, sep_f. auto.
Qed.

Lemma starts_with_sep_map l :
  starts_with_sep sep1 (map f l) <-> starts_with_sep sep2 l.
Proof.
  unfold starts_with_sep. split.
  - intros [H | (c & p & H & Hc)].
    + left. now destruct l.
    + right. destruct l as [|c0 l0]; [discriminate|].
      inversion H; subst. exists c0, l0. now rewrite <- sep_f.
  - intros [-> | (c & p & -> & Hc)]; [now left|].
    right. exists (f c), (map f p). rewrite sep_f. auto.
Qed.

Lemma sep_free_map l : sep_free sep1 (map f l) <-> sep_free sep2 l.
Proof.
  unfold sep_free. rewrite List.Forall_map.
  split; apply List.Forall_impl; intros c; now rewrite sep_f.
Qed.

Lemma sep_free_map_id l : sep_free sep2 l -> map f l = l.
Proof.
  induction 1 as [|c l Hc _ IH]; simpl; [reflexivity|].
  now rewrite IH, f_id.
Qed.

Lemma maximal_run_map s t :
  maximal_run sep1 (map f s) t <-> maximal_run sep2 s t.
Proof.
  split.
  - intros (pre & post & Heq & Hne & Hfree & He & Hs).
    apply map_eq_app in Heq as (pre0 & r0 & -> & <- & Heq).
    apply map_eq_app in Heq as (t0 & post0 & -> & <- & <-).
    apply sep_free_map in Hfree.
    rewrite (sep_free_map_id t0 Hfree) in Hne.
    rewrite (sep_free_map_id t0 Hfree).
    exists pre0, post0. repeat split; auto.
    + now apply ends_with_sep_map.
    + now apply starts_with_sep_map.
  - intros (pre & post & -> & Hne & Hfree & He & Hs).
    assert (Hfree1 : sep_free sep1 t).
    { rewrite <- (sep_free_map_id t Hfree). now apply sep_free_map. }
    exists (map f pre), (map f post).
    rewrite !map_app, (sep_free_map_id t Hfree).
    split; [reflexivity|]. split; [exact Hne|]. split; [exact Hfree1|].
    split; [now apply ends_with_sep_map | now apply starts_with_sep_map].
Qed.

End MapSeparators.

Lemma is_space_sub_punct c :
  Text.is_space (sub_punct_char c) = is_separator c.
Proof.
  unfold sub_punct_char, is_separator.
  destruct (is_punct c); [now rewrite orb_true_r | now rewrite orb_false_r].
Qed.

Lemma sub_punct_id c : is_separator c = false -> sub_punct_char c = c.
Proof.
  unfold sub_punct_char, is_separator. intros H.
  apply orb_false_iff in H as [_ ->]. reflexivity.
Qed.

Lemma elem_of_split t s :
  t ∈ Text.split s <-> maximal_run Text.is_space (Text.chars s) (Text.chars t).
Proof.
  unfold Text.split. rewrite list_elem_of_In, in_map_iff, <- split_chars_spec.
  split.
  - intros (l & <- & Hl). now rewrite chars_str.
  - intros H. exists (Text.chars t). split; [apply str_chars | exact H].
Qed.

(** *** ASCII strings as code points *)

Lemma upper_char_ascii c :
  (Text.code c < 128)%N -> (Text.code (Text.upper_char c) < 128)%N.
Proof.
  destruct c as [b0 b1 b2 b3 b4 b5 b6 b7].
  destruct b0, b1, b2, b3, b4, b5, b6, b7; vm_compute; intros H;
    first [exact H | reflexivity].
Qed.

Lemma sub_punct_char_ascii c :
  (Text.code c < 128)%N -> (Text.code (sub_punct_char c) < 128)%N.
Proof.
  intros H. unfold sub_punct_char. destruct (is_punct c); [reflexivity | exact H].
Qed.

Lemma sub_punct_char_code c :
  Unicode.sub_punct_char (Text.code c) = Text.code (sub_punct_char c).
Proof.
  unfold Unicode.sub_punct_char, sub_punct_char, is_punct, Unicode.is_punct.
  cbv zeta. now destruct (_ || _).
Qed.

Lemma push_word_codes w ws :
  Unicode.push_word (map Text.code w) (map (map Text.code) ws)
  = map (map Text.code) (Text.push_word w ws).
Proof. now destruct w. Qed.

Lemma codepoints_str l : codepoints (Text.str l) = map Text.code l.
Proof. unfold codepoints. now rewrite chars_str. Qed.

Section AsciiTables.

Variable isspace : N -> bool.
Variable str_upper : list N -> list N.
Hypothesis isspace_ascii_range :
  forall c, (c < 128)%N -> isspace c = Text.is_space (ascii_of_N c).
Hypothesis str_upper_ascii_range :
  forall s, ascii_text s -> str_upper (codepoints s) = codepoints (Text.upper s).

Lemma isspace_code c :
  (Text.code c < 128)%N -> isspace (Text.code c) = Text.is_space c.
Proof.
  intros H. rewrite (isspace_ascii_range _ H).
  unfold Text.code. now rewrite ascii_N_embedding.
Qed.

Lemma isspace_space : isspace 32 = true.
Proof. now rewrite isspace_ascii_range. Qed.

Lemma scan_codes l :
  Forall (fun c => (Text.code c < 128)%N) l ->
  Unicode.scan isspace (map Text.code l)
  = (map Text.code (fst (Text.scan l)), map (map Text.code) (snd (Text.scan l))).
Proof.
  induction 1 as [|c l Hc _ IH]; simpl; [reflexivity|].
  rewrite IH, (isspace_code c Hc).
  destruct (Text.scan l) as [w ws]. simpl.
  destruct (Text.is_space c); simpl; [|reflexivity].
  now rewrite push_word_codes.
Qed.

Lemma split_codes l :
  Forall (fun c => (Text.code c < 128)%N) l ->
  Unicode.split isspace (map Text.code l) = map (map Text.code) (Text.split_chars l).
Proof.
  intros H. unfold Unicode.split, Text.split_chars. rewrite (scan_codes l H).
  destruct (Text.scan l) as [w ws]. simpl. apply push_word_codes.
Qed.

(** On an ASCII string the classifier gives the tokens of [tokenise_pos],
    as code points. *)
Lemma tokenise_pos_codepoints s :
  ascii_text s ->
  Unicode.tokenise_pos isspace str_upper (codepoints s)
  = list_to_set (map codepoints (Text.split (re_sub_punct (Text.upper s)))).
Proof.
  intros Hs. unfold Unicode.tokenise_pos.
  rewrite (str_upper_ascii_range s Hs). f_equal.
  unfold Text.split, re_sub_punct, Text.upper, codepoints, Unicode.re_sub_punct.
  rewrite !chars_str, !map_map.
  rewrite (map_ext (fun c => Unicode.sub_punct_char (Text.code (Text.upper_char c)))
             (fun c => Text.code (sub_punct_char (Text.upper_char c))))
    by (intros c; apply sub_punct_char_code).
  rewrite <- (map_map (fun c => sub_punct_char (Text.upper_char c)) Text.code).
  rewrite split_codes.
  - apply map_ext. intros w. now rewrite chars_str.
  - rewrite List.Forall_map. revert Hs. unfold ascii_text.
    apply List.Forall_impl. intros c Hc.
    now apply sub_punct_char_ascii, upper_char_ascii.
Qed.

End AsciiTables.

Lemma ascii_text_d_rlc_wb : ascii_text "D (RLC), WB".
Proof. unfold ascii_text. vm_compute. repeat constructor. Qed.

Lemma ascii_text_gk : ascii_text "gk".
Proof. unfold ascii_text. vm_compute. repeat constructor. Qed.

(** C8.  [isspace] and [str_upper] are Python's [str.isspace] and
    [str.upper]; all that is used of them is what they do on the ASCII
    range.  For every string, the tokens are exactly the maximal runs, in
    the upper-cased string, of characters that are neither white space nor
    one of the four punctuation characters: the string is upper-cased, the
    punctuation becomes white space and the result is split on runs of
    white space, as a set.  On an ASCII string the tokens are those of
    [tokenise_pos], and the two strings of the specification give the sets
    it names. *)
Theorem tokenise_pos_tokens (isspace : N -> bool) (str_upper : list N -> list N) :
  (forall c, (c < 128)%N -> isspace c = Text.is_space (ascii_of_N c)) ->
  (forall s, ascii_text s -> str_upper (codepoints s) = codepoints (Text.upper s)) ->
  (forall s t,
     t ∈ Unicode.tokenise_pos isspace str_upper s <->
     maximal_run (Unicode.is_separator isspace) (str_upper s) t)
  /\ (forall s, ascii_text s ->
      forall u, u ∈ Unicode.tokenise_pos isspace str_upper (codepoints s) <->
                exists t, t ∈ tokenise_pos s /\ u = codepoints t)
  /\ Unicode.tokenise_pos isspace str_upper (codepoints "D (RLC), WB")
     = {[ codepoints "D"; codepoints "RLC"; codepoints "WB" ]}
  /\ Unicode.tokenise_pos isspace str_upper (codepoints "gk")
     = {[ codepoints "GK" ]}.
Proof.
  intros Hspace Hupper. split; [|split; [|split]].
  - intros s t. unfold Unicode.tokenise_pos.
    rewrite elem_of_list_to_set, list_elem_of_In, split_codepoints_spec.
    unfold Unicode.re_sub_punct. apply maximal_run_map.
    + intros c. unfold Unicode.sub_punct_char, Unicode.is_separator.
      destruct (Unicode.is_punct c).
      * rewrite orb_true_r. now apply isspace_space.
      * now rewrite orb_false_r.
    + intros c. unfold Unicode.sub_punct_char, Unicode.is_separator. intros H.
      apply orb_false_iff in H as [_ ->]. reflexivity.
  - intros s Hs u.
    rewrite (tokenise_pos_codepoints isspace str_upper Hspace Hupper s Hs).
    unfold tokenise_pos.
    rewrite elem_of_list_to_set, list_elem_of_In, in_map_iff. split.
    + intros (t & <- & Ht). exists t. split; [|reflexivity].
      now rewrite elem_of_list_to_set, list_elem_of_In.
    + intros (t & Ht & ->). exists t. split; [reflexivity|].
      now rewrite elem_of_list_to_set, list_elem_of_In in Ht.
  - rewrite (tokenise_pos_codepoints isspace str_upper Hspace Hupper _
               ascii_text_d_rlc_wb).
    vm_compute. reflexivity.
  - rewrite (tokenise_pos_codepoints isspace str_upper Hspace Hupper _ ascii_text_gk).
    vm_compute. reflexivity.
Qed.

Lemma isspace_ascii_range c :
  (c < 128)%N -> isspace_ascii c = Text.is_space (ascii_of_N c).
Proof.
  intros H. unfold isspace_ascii. apply N.ltb_lt in H. now rewrite H.
Qed.

Lemma upper_ascii_range s :
  ascii_text s -> upper_ascii (codepoints s) = codepoints (Text.upper s).
Proof.
  unfold ascii_text, upper_ascii, codepoints, Text.upper. rewrite chars_str.
  induction 1 as [|c l Hc _ IH]; simpl; [reflexivity|].
  rewrite IH. f_equal. apply N.ltb_lt in Hc. rewrite Hc.
  unfold Text.code. now rewrite ascii_N_embedding.
Qed.

Lemma tokenise_pos_tokens_witness :
  (forall c, (c < 128)%N -> isspace_ascii c = Text.is_space (ascii_of_N c))
  /\ (forall s, ascii_text s -> upper_ascii (codepoints s) = codepoints (Text.upper s))
  /\ Unicode.tokenise_pos isspace_ascii upper_ascii (codepoints "D (RLC), WB")
     = {[ codepoints "D"; codepoints "RLC"; codepoints "WB" ]}
  /\ Unicode.tokenise_pos isspace_ascii upper_ascii (codepoints "gk")
     = {[ codepoints "GK" ]}.
Proof.
  split; [exact isspace_ascii_range|].
  split; [exact upper_ascii_range|].
  destruct (tokenise_pos_tokens isspace_ascii upper_ascii
              isspace_ascii_range upper_ascii_range) as (_ & _ & H1 & H2).
  split; [exact H1 | exact H2].
Defined.

(** [tokenise_pos] on the two strings of the specification. *)
Example tokenise_pos_d_rlc_wb : tokenise_pos "D (RLC), WB" = {[ "D"; "RLC"; "WB" ]}.
Proof. vm_compute. reflexivity. Qed.

Example tokenise_pos_gk : tokenise_pos "gk" = {[ "GK" ]}.
Proof. vm_compute. reflexivity. Qed.

(** ** Category Assigner *)

Lemma truthy_inter (l : list string) (toks : gset string) :
  truthy (list_to_set l ∩ toks) = bool_decide (Exists (fun t => t ∈ toks) l).
Proof.
  unfold truthy. apply bool_decide_ext. rewrite Exists_exists. split.
  - intros H. apply set_choose_L in H as [x Hx].
    apply elem_of_intersection in Hx as [Hx Ht].
    apply elem_of_list_to_set in Hx. eauto.
  - intros (x & Hx & Ht) He.
    apply (not_elem_of_empty (C:=gset string) x). rewrite <- He.
    apply elem_of_intersection. split; [|exact Ht].
    now apply elem_of_list_to_set.
Qed.

Lemma count_row_at counts p k :
  count_row counts p k = (counts k + if decide (hits k p) then 1 else 0)%nat.
Proof.
  unfold count_row.
  change ({[ "D"; "WB"; "FB" ]} : gset string)
    with (list_to_set (role_tokens Defender) : gset string).
  change ({[ "DM"; "M"; "AM"; "W" ]} : gset string)
    with (list_to_set (role_tokens Midfielder) : gset string).
  change ({[ "ST"; "CF"; "FW" ]} : gset string)
    with (list_to_set (role_tokens Forward) : gset string).
  rewrite !truthy_inter.
  assert (Hgk : bool_decide ("GK" ∈ tokenise_pos p) = bool_decide (hits Goalkeeper p)).
  { apply bool_decide_ext. unfold hits. simpl.
    rewrite Exists_cons, Exists_nil. tauto. }
  rewrite Hgk.
  fold (hits Defender p) (hits Midfielder p) (hits Forward p).
  unfold incr.
  destruct k; repeat case_bool_decide; repeat case_decide;
    try congruence; try contradiction; lia.
Qed.

Lemma fold_count_row pos counts k :
  fold_left count_row pos counts k = (counts k + hit_count k pos)%nat.
Proof.
  revert counts. induction pos as [|p pos IH]; intros counts; simpl.
  - unfold hit_count. simpl. lia.
  - rewrite IH, count_row_at. unfold hit_count.
    rewrite filter_cons. case_decide; simpl; lia.
Qed.

(** The counter of a category is the number of rows that count for it. *)
Lemma tally_hit_count pos k : tally pos k = hit_count k pos.
Proof. unfold tally. now rewrite fold_count_row. Qed.

Lemma pair_gt_spec a b :
  pair_gt a b = true <->
  (fst b < fst a \/ fst a = fst b /\ snd b < snd a)%Z.
Proof. unfold pair_gt. destruct a, b; simpl. lia. Qed.

Lemma index_order k :
  index k order =
  Some match k with
       | Goalkeeper => 0 | Defender => 1 | Midfielder => 2 | Forward => 3
       end%Z.
Proof. destruct k; reflexivity. Qed.

(** Case analysis on the comparisons [max] makes, innermost first. *)
Ltac split_comparisons :=
  repeat match goal with
  | |- context [pair_gt ?a ?b] =>
      lazymatch b with context [pair_gt _ _] => fail | _ => idtac end;
      let H := fresh "Hcmp" in
      destruct (pair_gt a b) eqn:H;
      [apply pair_gt_spec in H
      |apply not_true_iff_false in H; rewrite pair_gt_spec in H];
      rewrite !index_order in H; cbn [fst snd default from_option] in H
  end.

(** The choice of [max] over the four categories, for any counters. *)
Lemma majority_of_counts (n : category -> nat) :
  let key k := (Z.of_nat (n k), (- default 0 (index k order))%Z) in
  let r := default Goalkeeper (py_max key order) in
  (forall k, (n k <= n r)%nat)
  /\ (forall k, n k = n r ->
        exists i j, index r order = Some i /\ index k order = Some j /\ (i <= j)%Z)
  /\ ((forall k, n k = 0%nat) -> r = Goalkeeper).
Proof.
  intros key r. subst key r. unfold py_max, order.
  cbn [fold_left default from_option].
  split_comparisons.
  all: unfold id in *.
  all: split; [intros []; lia | split].
  all: try (intros [] Hk; fold order; rewrite !index_order; eexists _, _;
            (split; [reflexivity | split; [reflexivity | lia]])).
  all: intros Hz; try reflexivity;
       pose proof (Hz Goalkeeper); pose proof (Hz Defender);
       pose proof (Hz Midfielder); pose proof (Hz Forward); lia.
Qed.

(** C1.  The four counters count, each on its own, the rows whose token
    set holds GK, meets {D, WB, FB}, meets {DM, M, AM, W}, meets
    {ST, CF, FW}; the category returned has the highest counter, and among
    the categories with that counter it is the earliest of the order
    Goalkeeper, Defender, Midfielder, Forward; with all counters at zero it
    is Goalkeeper. *)
Theorem table_majority_category_spec (pos_column : list string) :
  let r := table_majority_category pos_column in
  (forall k, tally pos_column k = hit_count k pos_column)
  /\ (forall k, (hit_count k pos_column <= hit_count r pos_column)%nat)
  /\ (forall k, hit_count k pos_column = hit_count r pos_column ->
        exists i j, index r order = Some i /\ index k order = Some j /\ (i <= j)%Z)
  /\ ((forall k, hit_count k pos_column = 0%nat) -> r = Goalkeeper).
Proof.
  intros r. split; [apply tally_hit_count|].
  destruct (majority_of_counts (tally pos_column)) as (Hmax & Hfirst & Hzero).
  fold (table_majority_category pos_column) in Hmax, Hfirst, Hzero. fold r in Hmax, Hfirst, Hzero.
  split; [|split].
  - intros k. rewrite <- !tally_hit_count. apply Hmax.
  - intros k. rewrite <- !tally_hit_count. apply Hfirst.
  - intros Hz. apply Hzero. intros k. rewrite tally_hit_count. apply Hz.
Qed.

Example majority_two_beats_one :
  table_majority_category ["GK"; "D"; "D"] = Defender.
Proof. vm_compute. reflexivity. Qed.

Example majority_tie_goes_to_goalkeeper :
  table_majority_category ["GK"; "D (C)"] = Goalkeeper.
Proof. vm_compute. reflexivity. Qed.

Example majority_non_exclusive :
  tally ["M/ST"; "D/WB"] Midfielder = 1%nat
  /\ tally ["M/ST"; "D/WB"] Forward = 1%nat
  /\ tally ["M/ST"; "D/WB"] Defender = 1%nat.
Proof. vm_compute. auto. Qed.

(** ** Table Filter *)

Lemma needed_list :
  needed = list_to_set ["R"; "Name"; "Age"; "Pos"; "Club"].
Proof. vm_compute. reflexivity. Qed.

(** C7.  A table passes the filter exactly when each of R, Name, Age, Pos
    and Club is among its columns and it has a row.  The filter is a
    function of the table alone, and the loading loop prepares the tables
    that pass, in order, and nothing for the others. *)
Theorem is_wonderkids_table_spec :
  (forall t,
     is_wonderkids_table t = true <->
     (forall c, c ∈ ["R"; "Name"; "Age"; "Pos"; "Club"] -> c ∈ Raw.columns t)
     /\ (1 <= length (Raw.rows t))%nat)
  /\ (forall to_numeric tables,
        load_tables to_numeric tables =
        map (prepare to_numeric) (List.filter is_wonderkids_table tables)).
Proof.
  split.
  - intros t. unfold is_wonderkids_table. rewrite needed_list.
    rewrite andb_true_iff, bool_decide_eq_true, Nat.ltb_lt.
    apply and_iff_compat_r. rewrite elem_of_subseteq.
    split; intros H c Hc.
    + apply (elem_of_list_to_set (C:=gset string)), H.
      now apply elem_of_list_to_set.
    + apply elem_of_list_to_set, H.
      now apply (elem_of_list_to_set (C:=gset string)).
  - intros to_numeric tables. induction tables as [|t tables IH]; simpl.
    + reflexivity.
    + destruct (is_wonderkids_table t); simpl; now rewrite IH.
Qed.

Example navigation_table_is_skipped :
  is_wonderkids_table
    {| Raw.columns := ["Name"; "Club"]; Raw.rows := [Raw.Build_row None "x" 0 "" ""] |}
  = false.
Proof. vm_compute. reflexivity. Qed.

Example empty_table_is_skipped :
  is_wonderkids_table
    {| Raw.columns := ["R"; "Name"; "Age"; "Pos"; "Club"]; Raw.rows := [] |}
  = false.
Proof. vm_compute. reflexivity. Qed.

(** ** Loading the tables *)

Lemma dropna_R_present l :
  dropna_R l = filter (fun r => Raw.R r <> None) l.
Proof.
  unfold dropna_R. apply list_filter_iff.
  intros r. rewrite <- not_eq_None_Some. tauto.
Qed.

Lemma filter_filter {A} (f g : A -> bool) l :
  List.filter f (List.filter g l) = List.filter (fun x => g x && f x) l.
Proof.
  induction l as [|x l IH]; simpl; [reflexivity|].
  destruct (g x); simpl; [destruct (f x)|]; now rewrite IH.
Qed.

Lemma filter_true {A} (f : A -> bool) l :
  (forall x, f x = true) -> List.filter f l = l.
Proof.
  intros H. induction l as [|x l IH]; simpl; [reflexivity|].
  now rewrite H, IH.
Qed.

Lemma club_step cfg f :
  let g := if bool_decide (selected_clubs cfg <> [])
           then select_rows (fun r => isin (Club r) (selected_clubs cfg)) f
           else f in
  columns g = columns f /\
  rows g = List.filter (fun r => bool_decide (selected_clubs cfg = [])
                                 || bool_decide (Club r ∈ selected_clubs cfg)) (rows f).
Proof.
  destruct (decide (selected_clubs cfg = [])) as [Hc|Hc].
  - rewrite bool_decide_eq_false_2 by (intros H; now apply H).
    rewrite bool_decide_eq_true_2 by exact Hc.
    split; [reflexivity|]. symmetry. now apply filter_true.
  - rewrite bool_decide_eq_true_2 by exact Hc.
    rewrite bool_decide_eq_false_2 by exact Hc.
    split; reflexivity.
Qed.

(** Whatever the search pattern, a view holds rows of the frame, in
    order, that pass the age, rating and club tests. *)
Lemma filtered_inv cfg df view :
  filtered cfg df = Some view ->
  columns view = columns df /\
  exists name_mask,
    rows view =
    List.filter
      (fun r => (fst (age_range cfg) <=? Age r)%Z && (Age r <=? snd (age_range cfg))%Z
                && rating_ge (Rating r) (rating_filter cfg)
                && (bool_decide (selected_clubs cfg = [])
                    || bool_decide (Club r ∈ selected_clubs cfg))
                && name_mask r)
      (rows df).
Proof.
  unfold filtered. intros H.
  destruct (club_step cfg
    (select_rows (fun r => rating_ge (Rating r) (rating_filter cfg))
       (select_rows (fun r => (fst (age_range cfg) <=? Age r)%Z
                              && (Age r <=? snd (age_range cfg))%Z) df)))
    as [Hcol Hrows].
  cbv zeta in Hcol, Hrows.
  set (g := if bool_decide (selected_clubs cfg <> []) then _ else _) in *.
  unfold select_rows in Hcol, Hrows. cbn [rows columns] in Hcol, Hrows.
  rewrite !filter_filter in Hrows.
  destruct (bool_decide (search_name cfg <> "")).
  - destruct (re_compile (search_name cfg)) as [re|]; [|discriminate].
    simpl in H. inversion H; subst view; clear H.
    unfold select_rows. cbn [rows columns]. split; [exact Hcol|].
    exists (fun r => re_search re (Text.lower (Name r))).
    rewrite Hrows, filter_filter.
    apply filter_ext. intros r. now rewrite !andb_assoc.
  - inversion H; subst view; clear H. split; [exact Hcol|].
    exists (fun _ => true). rewrite Hrows.
    apply filter_ext. intros r. now rewrite !andb_assoc, andb_true_r.
Qed.

Lemma rating_ge_spec r m :
  rating_ge r m = true <-> exists z, r = Some z /\ (m <= z)%Z.
Proof.
  destruct r as [z|]; simpl.
  - rewrite Z.leb_le. split; [eauto | intros (z' & [= <-] & H); exact H].
  - split; [discriminate | intros (z & [=] & _)].
Qed.

Lemma view_ratings cfg df view :
  filtered cfg df = Some view ->
  Forall (fun rec => exists z, Rating rec = Some z /\ (rating_filter cfg <= z)%Z)
         (rows view).
Proof.
  intros H. apply filtered_inv in H as (_ & mask & ->).
  apply List.Forall_forall. intros rec Hin.
  apply filter_In in Hin as [_ Hin].
  rewrite !andb_true_iff in Hin.
  apply rating_ge_spec. tauto.
Qed.

(** C4.  While a table is prepared, the rows dropped are those whose R
    cell is absent: the rows of the prepared frame are, one for one and in
    order, the rows of the table whose R cell is present, each with R
    coerced to a number.  A row whose R is present but is no number stays,
    with NaN as its Rating; and no row with a NaN Rating passes the
    comparison with the minimum rating, so no view holds one. *)
Theorem rating_absent_dropped_invalid_kept (to_numeric : string -> option Z) :
  (forall t,
     let kept := filter (fun r => Raw.R r <> None) (Raw.rows t) in
     Forall2 (fun r rec =>
                Rating rec = coerce to_numeric (Raw.R r)
                /\ Name rec = Raw.Name r /\ Age rec = Raw.Age r
                /\ Pos rec = Raw.Pos r /\ Club rec = Raw.Club r)
             kept (rows (prepare to_numeric t))
     /\ (forall r, r ∈ kept <-> r ∈ Raw.rows t /\ Raw.R r <> None)
     /\ kept `sublist_of` Raw.rows t
     /\ (forall r s, r ∈ Raw.rows t -> Raw.R r = Some s -> to_numeric s = None ->
           r ∈ kept /\ coerce to_numeric (Raw.R r) = None))
  /\ (forall m, rating_ge None m = false)
  /\ (forall cfg df view,
        filtered cfg df = Some view ->
        Forall (fun rec => Rating rec <> None) (rows view)).
Proof.
  split; [|split].
  - intros t kept. subst kept. unfold prepare. cbn [rows].
    rewrite <- dropna_R_present.
    split; [|split; [|split]].
    + generalize (table_majority_category (map Raw.Pos (dropna_R (Raw.rows t)))).
      intros cat.
      induction (dropna_R (Raw.rows t)) as [|r l IH]; simpl; constructor;
        [repeat split | exact IH].
    + intros r. rewrite dropna_R_present, list_elem_of_filter. tauto.
    + rewrite dropna_R_present. apply sublist_filter.
    + intros r s Hin HR Hnum. split.
      * rewrite dropna_R_present. apply list_elem_of_filter. split; [congruence | exact Hin].
      * rewrite HR. exact Hnum.
  - reflexivity.
  - intros cfg df view H. apply view_ratings in H.
    eapply List.Forall_impl; [|exact H].
    intros rec (z & -> & _). discriminate.
Qed.

(** The rows that count for a category among those with R present are
    rows that count for it in the whole table. *)
Lemma hit_count_dropna k l :
  (hit_count k (map Raw.Pos (dropna_R l)) <= hit_count k (map Raw.Pos l))%nat.
Proof.
  unfold hit_count, dropna_R.
  induction l as [|r l IH]; simpl; [lia|].
  rewrite (filter_cons (hits k)), (filter_cons (fun r => is_Some (Raw.R r))).
  repeat case_decide; simpl; try rewrite (filter_cons (hits k));
    repeat case_decide; simpl; try contradiction; lia.
Qed.

(** C10.  The category of a prepared table is the majority over the rows
    whose R cell is present: the counters count those rows only, so a row
    without R adds to none of them, and the label of a table can differ
    from the majority over all the rows scraped. *)
Theorem category_over_rows_with_rating (to_numeric : string -> option Z) :
  (forall t,
     let kept := filter (fun r => Raw.R r <> None) (Raw.rows t) in
     Forall (fun rec => Category rec = table_majority_category (map Raw.Pos kept))
            (rows (prepare to_numeric t))
     /\ (forall k, tally (map Raw.Pos kept) k
                   = length (filter (fun r => Raw.R r <> None /\ hits k (Raw.Pos r))
                                    (Raw.rows t))))
  /\ (exists t,
        is_wonderkids_table t = true
        /\ Forall (fun rec => Category rec = Forward) (rows (prepare to_numeric t))
        /\ rows (prepare to_numeric t) <> []
        /\ table_majority_category (map Raw.Pos (Raw.rows t)) = Goalkeeper).
Proof.
  split.
  - intros t kept. subst kept. rewrite <- dropna_R_present. split.
    + unfold prepare. cbn [rows].
      generalize (table_majority_category (map Raw.Pos (dropna_R (Raw.rows t)))).
      intros cat. apply List.Forall_forall. intros rec Hin.
      apply in_map_iff in Hin as (r & <- & _). reflexivity.
    + intros k. rewrite tally_hit_count, dropna_R_present. unfold hit_count.
      induction (Raw.rows t) as [|r l IH]; [reflexivity|].
      rewrite (filter_cons (fun r => Raw.R r <> None)).
      rewrite (filter_cons (fun r => Raw.R r <> None /\ hits k (Raw.Pos r))).
      destruct (decide (Raw.R r <> None)) as [Hr|Hr].
      * cbn [map]. rewrite (filter_cons (hits k)).
        destruct (decide (hits k (Raw.Pos r))) as [Hk|Hk].
        -- rewrite decide_True by tauto. cbn [length]. now rewrite IH.
        -- rewrite decide_False by tauto. exact IH.
      * rewrite decide_False by tauto. exact IH.
  - exists {| Raw.columns := ["R"; "Name"; "Age"; "Pos"; "Club"];
              Raw.rows := [ Raw.Build_row None "A" 17 "GK" "X";
                            Raw.Build_row None "B" 18 "GK" "Y";
                            Raw.Build_row (Some "80") "C" 19 "ST" "Z" ] |}.
    split; [vm_compute; reflexivity|].
    split; [|split; [discriminate | vm_compute; reflexivity]].
    unfold prepare. cbn [rows Raw.rows].
    repeat constructor.
Qed.

(** ** Dataset Merger *)

Section DropDuplicates.

Context {K : Type} `{EqDecision K} (key : PlayerRecord -> K).

Lemma drop_seen_sublist seen l : drop_seen key seen l `sublist_of` l.
Proof.
  revert seen. induction l as [|r l IH]; intros seen; simpl.
  - constructor.
  - case_decide; [apply sublist_cons | apply sublist_skip]; apply IH.
Qed.

Lemma drop_seen_fresh seen l r :
  r ∈ drop_seen key seen l -> key r ∉ seen.
Proof.
  revert seen. induction l as [|x l IH]; intros seen; simpl.
  - intros Hin. inversion Hin.
  - case_decide as Hx.
    + apply IH.
    + intros Hin. apply elem_of_cons in Hin as [-> | Hin]; [exact Hx|].
      apply IH in Hin. intros Hs. apply Hin. now apply list_elem_of_further.
Qed.

Lemma drop_seen_NoDup seen l : NoDup (map key (drop_seen key seen l)).
Proof.
  revert seen. induction l as [|x l IH]; intros seen; simpl.
  - constructor.
  - case_decide as Hx; [apply IH|].
    simpl. constructor; [|apply IH].
    intros Hin. apply list_elem_of_In, in_map_iff in Hin as (r & Hk & Hr).
    apply list_elem_of_In, drop_seen_fresh in Hr.
    apply Hr. rewrite Hk. apply list_elem_of_here.
Qed.




End DropDuplicates.


Example merge_two_tables :
  let p := {| Rating := Some 80%Z; Name := "A"; Age := 17; Pos := "ST"; Club := "X";
              Category := Forward |} in
  let q := {| Rating := Some 75%Z; Name := "A"; Age := 18; Pos := "ST"; Club := "X";
              Category := Midfielder |} in
  rows (merge [ {| columns := loaded_columns; rows := [p] |};
                {| columns := loaded_columns; rows := [q] |} ]) = [p].
Proof. vm_compute. reflexivity. Qed.

(** ** Filter/Export Layer *)














(** *** The tabs *)

Lemma rating_before_trans a b c :
  rating_before a b -> rating_before b c -> rating_before a c.
Proof. destruct a, b, c; simpl; try tauto; lia. Qed.

#[local] Instance by_rating_desc_trans : Transitive by_rating_desc.
Proof. intros x y z. apply rating_before_trans. Qed.

Lemma strictly_better_before x y :
  strictly_better x y = true -> by_rating_desc x y.
Proof.
  unfold strictly_better, by_rating_desc.
  destruct (Rating x), (Rating y); simpl; try discriminate; try tauto.
  rewrite Z.ltb_lt. lia.
Qed.

Lemma not_strictly_better_before x y :
  strictly_better x y = false -> by_rating_desc y x.
Proof.
  unfold strictly_better, by_rating_desc.
  destruct (Rating x), (Rating y); simpl; try discriminate; try tauto.
  rewrite Z.ltb_ge. lia.
Qed.

Lemma insert_after_ties_perm x l : Permutation (insert_after_ties x l) (x :: l).
Proof.
  induction l as [|y l IH]; simpl; [reflexivity|].
  destruct (strictly_better x y); [reflexivity|].
  rewrite IH. apply perm_swap.
Qed.

Lemma insert_after_ties_hd y x l :
  by_rating_desc y x -> HdRel by_rating_desc y l ->
  HdRel by_rating_desc y (insert_after_ties x l).
Proof.
  intros Hyx Hhd. destruct l as [|z l]; simpl.
  - now constructor.
  - destruct (strictly_better x z); constructor; [exact Hyx|].
    now inversion Hhd.
Qed.

Lemma insert_after_ties_sorted x l :
  Sorted by_rating_desc l -> Sorted by_rating_desc (insert_after_ties x l).
Proof.
  induction 1 as [|y l Hs IH Hhd]; simpl.
  - repeat constructor.
  - destruct (strictly_better x y) eqn:Hxy.
    + constructor; [now constructor|].
      constructor. now apply strictly_better_before.
    + constructor; [exact IH|].
      apply insert_after_ties_hd; [|exact Hhd].
      now apply not_strictly_better_before.
Qed.

(** The sort that reverses ties does what pandas promises of a sort. *)
Lemma sort_ties_reversed_contract : sort_contract sort_ties_reversed.
Proof.
  intros l. induction l as [|x l [IHp IHs]]; simpl.
  - split; [reflexivity | constructor].
  - split.
    + rewrite insert_after_ties_perm. now constructor.
    + now apply insert_after_ties_sorted.
Qed.

Lemma StronglySorted_app {A} (R : A -> A -> Prop) l1 l2 :
  StronglySorted R (l1 ++ l2) ->
  StronglySorted R l1 /\ forall a b, In a l1 -> In b l2 -> R a b.
Proof.
  induction l1 as [|x l1 IH]; simpl; intros H.
  - split; [constructor | intros a b []].
  - inversion H as [|? ? Hs Hall]; subst.
    destruct (IH Hs) as [IH1 IH2]. split.
    + constructor; [exact IH1|].
      apply List.Forall_forall. intros y Hy.
      rewrite List.Forall_forall in Hall. apply Hall, in_or_app. now left.
    + intros a b [<- | Ha] Hb.
      * rewrite List.Forall_forall in Hall. apply Hall, in_or_app. now right.
      * now apply IH2.
Qed.

Lemma sublist_full {A} (l1 l2 : list A) :
  l1 `sublist_of` l2 -> (length l2 <= length l1)%nat -> l1 = l2.
Proof.
  induction 1 as [|x l1 l2 Hs IH|x l1 l2 Hs IH]; simpl; intros Hlen.
  - reflexivity.
  - f_equal. apply IH. lia.
  - apply sublist_length in Hs. lia.
Qed.

Section TabsProperties.

Variable sort_values_rating_desc : list PlayerRecord -> list PlayerRecord.
Hypothesis sort_ok : sort_contract sort_values_rating_desc.

(** C3, as the code has it.  The slice of a category holds only records of
    the view that carry the category, from the highest Rating down (a NaN
    Rating last); it holds 100 of them, or all of them when the category
    has fewer; it is the head of a rearrangement of the category's
    records, and no record left out has a higher Rating than a record of
    the slice.  The order among equal ratings is the sort's: pandas does
    not promise one for its default kind. *)
Theorem render_tab_top_100 (cat_label : category) (view : DataFrame) :
  let sub := rows (render_tab sort_values_rating_desc cat_label view) in
  (forall r, r ∈ sub -> r ∈ rows view /\ Category r = cat_label)
  /\ StronglySorted by_rating_desc sub
  /\ (length sub <= 100)%nat
  /\ length sub
     = Nat.min 100
         (length (List.filter (fun r => bool_decide (Category r = cat_label))
                    (rows view)))
  /\ exists rest,
       Permutation (sub ++ rest)
         (List.filter (fun r => bool_decide (Category r = cat_label)) (rows view))
       /\ forall a b, a ∈ sub -> b ∈ rest -> by_rating_desc a b.
Proof.
  intros sub. subst sub. unfold render_tab, select_rows. cbn [rows columns].
  set (l := List.filter _ (rows view)).
  destruct (sort_ok l) as [Hperm Hsorted].
  apply Sorted_StronglySorted in Hsorted; [|apply by_rating_desc_trans].
  rewrite <- (take_drop 100 (sort_values_rating_desc l)) in Hsorted.
  apply StronglySorted_app in Hsorted as [Hhead Hcut].
  split; [|split; [exact Hhead | split; [|split]]].
  - intros r Hr. apply list_elem_of_In in Hr.
    assert (Hin : In r l).
    { apply (Permutation_in _ Hperm).
      rewrite <- (take_drop 100 (sort_values_rating_desc l)).
      apply in_or_app. now left. }
    subst l. apply filter_In in Hin as [Hin Hcat].
    apply bool_decide_eq_true in Hcat. now rewrite list_elem_of_In.
  - rewrite length_take. lia.
  - rewrite length_take. now rewrite (Permutation_length Hperm).
  - exists (drop 100 (sort_values_rating_desc l)). split.
    + now rewrite take_drop.
    + intros a b Ha Hb. apply Hcut; now apply list_elem_of_In.
Qed.

End TabsProperties.

Lemma render_tab_top_100_witness :
  sort_contract sort_ties_reversed
  /\ rows (render_tab sort_ties_reversed Forward sample_dataset) = [ann; bob]
  /\ StronglySorted by_rating_desc
       (rows (render_tab sort_ties_reversed Forward sample_dataset))
  /\ (length (rows (render_tab sort_ties_reversed Forward sample_dataset)) <= 100)%nat.
Proof.
  split; [exact sort_ties_reversed_contract|].
  split; [reflexivity|].
  destruct (render_tab_top_100 sort_ties_reversed sort_ties_reversed_contract
              Forward sample_dataset) as (_ & Hsorted & Hlen & _).
  split; [exact Hsorted | exact Hlen].
Defined.

(** C3 as the specification words it fails on the order of equal ratings:
    of twenty forwards of one rating, sorted as pandas sorts under its
    default kind, the slice does not keep the order of the view. *)
Lemma ties_lose_view_order :
  ~ keeps_view_order (rows tied_view)
      (rows (render_tab sort_values_quicksort Forward tied_view)).
Proof.
  intros H. specialize (H (Some 80%Z)).
  apply sublist_full in H; [|vm_compute; lia].
  vm_compute in H. discriminate H.
Qed.

(** *** The exports *)

Lemma load_tables_columns to_numeric tables :
  Forall (fun df => columns df = loaded_columns) (load_tables to_numeric tables).
Proof.
  induction tables as [|t tables IH]; simpl; [constructor|].
  destruct (is_wonderkids_table t); simpl; [|exact IH].
  constructor; [reflexivity | exact IH].
Qed.

Lemma union_columns_nil a : union_columns [] a = a.
Proof.
  unfold union_columns. simpl.
  induction a as [|c a IH]; [reflexivity|].
  rewrite filter_cons, decide_True by (intros H; inversion H).
  now rewrite IH.
Qed.

Lemma union_columns_self a : union_columns a a = a.
Proof.
  unfold union_columns.
  assert (H : forall b, (forall c, c ∈ b -> c ∈ a) -> filter (fun c => c ∉ a) b = []).
  { induction b as [|c b IH]; intros Hb; [reflexivity|].
    rewrite filter_cons, decide_False.
    - apply IH. intros d Hd. apply Hb. now apply list_elem_of_further.
    - intros Hc. apply Hc, Hb. apply list_elem_of_here. }
  rewrite H by auto. apply app_nil_r.
Qed.

(** Frames with the same columns are concatenated into a frame with
    those columns. *)
Lemma pd_concat_columns cols dfs :
  dfs <> [] -> Forall (fun df => columns df = cols) dfs ->
  columns (pd_concat dfs) = cols.
Proof.
  unfold pd_concat. cbn [columns].
  destruct dfs as [|d dfs]; [contradiction|]. intros _ Hall.
  apply Forall_cons in Hall as [Hd Hrest]. simpl.
  rewrite union_columns_nil, Hd. clear Hd.
  induction Hrest as [|e dfs He _ IH]; simpl; [reflexivity|].
  now rewrite He, union_columns_self.
Qed.

Lemma dataset_columns to_numeric tables df :
  dataset to_numeric tables = Some df -> columns df = loaded_columns.
Proof.
  unfold dataset. intros H.
  pose proof (load_tables_columns to_numeric tables) as Hall.
  destruct (load_tables to_numeric tables) as [|d dfs] eqn:Hl; [discriminate|].
  inversion H; subst df. unfold merge, drop_duplicates. cbn [columns].
  now apply pd_concat_columns.
Qed.

(** C2, as the code has it.  The view of a loaded dataset is written whole:
    the CSV export and the spreadsheet export both hold the six columns
    Rating, Name, Age, Pos, Club, Category, in that order, and one line per
    record of the view, in the view's order, with the record's six
    values. *)
Theorem exports_hold_the_frame to_numeric tables df cfg view :
  dataset to_numeric tables = Some df ->
  filtered cfg df = Some view ->
  let line r :=
    [ from_option Num Empty (Rating r); Txt (Name r); Num (Age r);
      Txt (Pos r); Txt (Club r); Txt (category_name (Category r)) ] in
  header (to_csv view) = ["Rating"; "Name"; "Age"; "Pos"; "Club"; "Category"]
  /\ body (to_csv view) = map line (rows view)
  /\ header (to_excel view) = ["Rating"; "Name"; "Age"; "Pos"; "Club"; "Category"]
  /\ body (to_excel view) = map line (rows view).
Proof.
  intros Hdf Hview line.
  apply dataset_columns in Hdf. apply filtered_inv in Hview as [Hcol _].
  assert (Hc : columns view = ["Rating"; "Name"; "Age"; "Pos"; "Club"; "Category"]).
  { rewrite Hcol, Hdf. reflexivity. }
  unfold to_csv, to_excel, write_frame. cbn [header body]. rewrite Hc.
  repeat split; reflexivity.
Qed.

Lemma exports_hold_the_frame_witness :
  dataset to_numeric_digits [sample_table]
  = Some {| columns := loaded_columns;
            rows := [ bob; {| Rating := None; Name := "Dan"; Age := 17; Pos := "AM (C), ST";
                              Club := "Genk"; Category := Forward |} ] |}
  /\ filtered (sample_config "") 
       {| columns := loaded_columns;
          rows := [ bob; {| Rating := None; Name := "Dan"; Age := 17; Pos := "AM (C), ST";
                            Club := "Genk"; Category := Forward |} ] |}
     = Some {| columns := loaded_columns; rows := [bob] |}
  /\ body (to_csv {| columns := loaded_columns; rows := [bob] |})
     = [[Num 80; Txt "Bob"; Num 18; Txt "ST"; Txt "Ajax"; Txt "Forward"]].
Proof.
  assert (H1 : dataset to_numeric_digits [sample_table]
    = Some {| columns := loaded_columns;
              rows := [ bob; {| Rating := None; Name := "Dan"; Age := 17; Pos := "AM (C), ST";
                                Club := "Genk"; Category := Forward |} ] |})
    by (vm_compute; reflexivity).
  assert (H2 : filtered (sample_config "")
       {| columns := loaded_columns;
          rows := [ bob; {| Rating := None; Name := "Dan"; Age := 17; Pos := "AM (C), ST";
                            Club := "Genk"; Category := Forward |} ] |}
     = Some {| columns := loaded_columns; rows := [bob] |})
    by (vm_compute; reflexivity).
  split; [exact H1|]. split; [exact H2|].
  destruct (exports_hold_the_frame _ _ _ _ _ H1 H2) as (_ & Hbody & _).
  rewrite Hbody. reflexivity.
Defined.

(** C2 as the specification words it fails: the exports hold a sixth
    column, Category. *)
Lemma exports_carry_category :
  exists df view,
    dataset to_numeric_digits [sample_table] = Some df
    /\ filtered (sample_config "") df = Some view
    /\ header (to_csv view) <> ["Rating"; "Name"; "Age"; "Pos"; "Club"]
    /\ header (to_excel view) <> ["Rating"; "Name"; "Age"; "Pos"; "Club"]
    /\ In "Category" (header (to_csv view))
    /\ In "Category" (header (to_excel view)).
Proof.
  eexists _, _.
  split; [vm_compute; reflexivity|].
  split; [vm_compute; reflexivity|].
  repeat split; try discriminate; vm_compute; tauto.
Qed.

(** * Further properties *)

(** ** Position Classifier *)

Lemma upper_lower_char c : Text.upper_char (Text.lower_char c) = Text.upper_char c.
Proof.
  destruct c as [b0 b1 b2 b3 b4 b5 b6 b7].
  destruct b0, b1, b2, b3, b4, b5, b6, b7; reflexivity.
Qed.

Lemma upper_upper_char c : Text.upper_char (Text.upper_char c) = Text.upper_char c.
Proof.
  destruct c as [b0 b1 b2 b3 b4 b5 b6 b7].
  destruct b0, b1, b2, b3, b4, b5, b6, b7; reflexivity.
Qed.

Lemma is_separator_upper_char c :
  is_separator c = true -> Text.upper_char c = c.
Proof.
  destruct c as [b0 b1 b2 b3 b4 b5 b6 b7].
  destruct b0, b1, b2, b3, b4, b5, b6, b7; (reflexivity || discriminate).
Qed.

Lemma chars_append s1 s2 :
  Text.chars (s1 +:+ s2) = Text.chars s1 ++ Text.chars s2.
Proof.
  unfold Text.chars. induction s1 as [|c s1 IH]; simpl; [reflexivity|].
  now rewrite IH.
Qed.

(** The tokens of a string are the maximal runs of the upper-cased
    string. *)
Lemma tokenise_pos_runs s t :
  t ∈ tokenise_pos s <->
  maximal_run is_separator (Text.chars (Text.upper s)) (Text.chars t).
Proof.
  unfold tokenise_pos.
  rewrite elem_of_list_to_set, elem_of_split.
  unfold re_sub_punct. rewrite chars_str.
  apply maximal_run_map; [apply is_space_sub_punct | apply sub_punct_id].
Qed.

(** X1.  The classifier does not look at the case of the letters: a
    position string, the same string in lower case and the same string in
    upper case have the same tokens. *)
Theorem tokenise_pos_ignores_case s :
  tokenise_pos (Text.lower s) = tokenise_pos s
  /\ tokenise_pos (Text.upper s) = tokenise_pos s.
Proof.
  assert (Hl : Text.upper (Text.lower s) = Text.upper s).
  { unfold Text.upper, Text.lower. rewrite chars_str, map_map. f_equal.
    apply map_ext. apply upper_lower_char. }
  assert (Hu : Text.upper (Text.upper s) = Text.upper s).
  { unfold Text.upper. rewrite chars_str, map_map. f_equal.
    apply map_ext. apply upper_upper_char. }
  unfold tokenise_pos. now rewrite Hl, Hu.
Qed.

Lemma scan_app_sep u1 c u2 :
  Text.is_space c = true ->
  Text.scan (u1 ++ c :: u2)
  = (fst (Text.scan u1), snd (Text.scan u1) ++ Text.split_chars u2).
Proof.
  intros Hc. induction u1 as [|a u1 IH]; simpl.
  - rewrite Hc. unfold Text.split_chars.
    destruct (Text.scan u2) as [w ws]. reflexivity.
  - rewrite IH. destruct (Text.scan u1) as [w ws]. simpl.
    destruct (Text.is_space a); [|reflexivity].
    f_equal. now destruct w.
Qed.

(** Splitting a text with a white space character in it splits the two
    sides. *)
Lemma split_chars_app_sep u1 c u2 :
  Text.is_space c = true ->
  Text.split_chars (u1 ++ c :: u2) = Text.split_chars u1 ++ Text.split_chars u2.
Proof.
  intros Hc. unfold Text.split_chars at 1 2. rewrite (scan_app_sep _ _ _ Hc).
  destruct (Text.scan u1) as [w ws]. simpl. now destruct w.
Qed.

(** X2.  Two position strings joined by a separator (a white space
    character or one of the four punctuation characters) have the tokens
    of the one and of the other: no token is made across the separator
    and none is lost. *)
Theorem tokenise_pos_joined s1 c s2 :
  is_separator c = true ->
  tokenise_pos (s1 +:+ String c s2) = tokenise_pos s1 ∪ tokenise_pos s2.
Proof.
  intros Hc. unfold tokenise_pos, Text.split, re_sub_punct, Text.upper.
  rewrite !chars_str, chars_append.
  change (Text.chars (String c s2)) with (c :: Text.chars s2).
  rewrite !map_app. cbn [map].
  rewrite (is_separator_upper_char c Hc).
  rewrite split_chars_app_sep by (now rewrite is_space_sub_punct).
  rewrite map_app. apply list_to_set_app_L.
Qed.

Lemma tokenise_pos_joined_witness :
  is_separator "/" = true
  /\ tokenise_pos ("AM (RL)" +:+ String "/" "ST (C)")
     = tokenise_pos "AM (RL)" ∪ tokenise_pos "ST (C)".
Proof.
  split; [reflexivity|].
  apply (tokenise_pos_joined "AM (RL)" "/" "ST (C)"). reflexivity.
Defined.

(** X3.  A token is never empty, holds no white space and none of the four
    punctuation characters, and holds no lower-case letter: upper-casing
    it changes nothing, so it can be compared with the upper-case role
    tokens as it is. *)
Theorem tokenise_pos_token_shape s t :
  t ∈ tokenise_pos s ->
  t <> ""
  /\ Forall (fun c => is_separator c = false) (Text.chars t)
  /\ Text.upper t = t.
Proof.
  intros Ht. apply tokenise_pos_runs in Ht as (pre & post & Heq & Hne & Hfree & _).
  split; [|split].
  - intros ->. now apply Hne.
  - exact Hfree.
  - unfold Text.upper in Heq. rewrite chars_str in Heq.
    apply map_eq_app in Heq as (p0 & r0 & _ & _ & Heq).
    apply map_eq_app in Heq as (t0 & q0 & _ & Ht0 & _).
    apply chars_inj. unfold Text.upper. rewrite chars_str, <- Ht0, map_map.
    apply map_ext. apply upper_upper_char.
Qed.

Lemma tokenise_pos_token_shape_witness :
  "RLC" ∈ tokenise_pos "d (rlc), wb"
  /\ "RLC" <> ""
  /\ Forall (fun c => is_separator c = false) (Text.chars "RLC")
  /\ Text.upper "RLC" = "RLC".
Proof.
  assert (H : "RLC" ∈ tokenise_pos "d (rlc), wb").
  { apply (bool_decide_unpack ("RLC" ∈ tokenise_pos "d (rlc), wb")).
    vm_compute. exact I. }
  split; [exact H|]. exact (tokenise_pos_token_shape _ _ H).
Defined.

(** ** Category Assigner *)

(** The category is a function of the four counters. *)
Lemma majority_ext (c1 c2 : counts_t) :
  (forall k, c1 k = c2 k) ->
  default Goalkeeper
    (py_max (fun k => (Z.of_nat (c1 k), (- default 0 (index k order))%Z)) order)
  = default Goalkeeper
      (py_max (fun k => (Z.of_nat (c2 k), (- default 0 (index k order))%Z)) order).
Proof.
  intros H. unfold py_max, order. cbn [fold_left default from_option]. cbv beta.
  now rewrite !H.
Qed.

Lemma majority_of_equal_counts l1 l2 :
  (forall k, hit_count k l1 = hit_count k l2) ->
  table_majority_category l1 = table_majority_category l2.
Proof.
  intros H. unfold table_majority_category. apply majority_ext.
  intros k. now rewrite !tally_hit_count.
Qed.

Lemma hit_count_app k l1 l2 :
  hit_count k (l1 ++ l2) = (hit_count k l1 + hit_count k l2)%nat.
Proof. unfold hit_count. now rewrite filter_app, length_app. Qed.

(** X4.  The category of a table does not depend on the order of its
    rows. *)
Theorem table_majority_category_row_order l1 l2 :
  Permutation l1 l2 ->
  table_majority_category l1 = table_majority_category l2.
Proof.
  intros Hp. apply majority_of_equal_counts. intros k. unfold hit_count.
  apply Permutation_length. now apply filter_Permutation.
Qed.

Lemma table_majority_category_row_order_witness :
  Permutation ["GK"; "D (C)"; "ST"; "D/WB (R)"] ["ST"; "D/WB (R)"; "D (C)"; "GK"]
  /\ table_majority_category ["GK"; "D (C)"; "ST"; "D/WB (R)"]
     = table_majority_category ["ST"; "D/WB (R)"; "D (C)"; "GK"].
Proof.
  assert (Hp : Permutation ["GK"; "D (C)"; "ST"; "D/WB (R)"]
                           ["ST"; "D/WB (R)"; "D (C)"; "GK"]).
  { apply (Permutation_trans (l' := ["ST"; "GK"; "D (C)"; "D/WB (R)"])).
    - apply (Permutation_trans (l' := ["GK"; "ST"; "D (C)"; "D/WB (R)"])).
      + apply perm_skip, perm_swap.
      + apply perm_swap.
    - apply perm_skip.
      apply (Permutation_trans (l' := ["D (C)"; "GK"; "D/WB (R)"])).
      + apply perm_swap.
      + apply (Permutation_trans (l' := ["D (C)"; "D/WB (R)"; "GK"])).
        * apply perm_skip, perm_swap.
        * apply perm_swap. }
  split; [exact Hp|]. exact (table_majority_category_row_order _ _ Hp).
Defined.

(** X5.  A row whose position string holds none of the role tokens (an
    unknown or empty position) counts for no category: the table's category
    is the same with the row and without it. *)
Theorem table_majority_category_skips_unknown l1 p l2 :
  (forall k, ~ hits k p) ->
  table_majority_category (l1 ++ p :: l2) = table_majority_category (l1 ++ l2).
Proof.
  intros Hp. apply majority_of_equal_counts. intros k.
  rewrite !hit_count_app. f_equal.
  unfold hit_count. rewrite filter_cons. now rewrite decide_False by apply Hp.
Qed.

Lemma table_majority_category_skips_unknown_witness :
  (forall k, ~ hits k "nan")
  /\ table_majority_category (["GK"] ++ "nan" :: ["D"; "D"])
     = table_majority_category (["GK"] ++ ["D"; "D"]).
Proof.
  assert (H : forall k, ~ hits k "nan").
  { intros k. apply (bool_decide_eq_false_1 (hits k "nan")).
    destruct k; vm_compute; reflexivity. }
  split; [exact H|].
  exact (table_majority_category_skips_unknown ["GK"] "nan" ["D"; "D"] H).
Defined.

(** ** Loading the tables *)

Lemma load_tables_nil_iff to_numeric tables :
  load_tables to_numeric tables = [] <->
  Forall (fun t => is_wonderkids_table t = false) tables.
Proof.
  induction tables as [|t tables IH]; simpl.
  - split; [constructor | reflexivity].
  - destruct (is_wonderkids_table t) eqn:Ht; simpl.
    + split; [discriminate|]. intros H. apply Forall_cons in H as [H _]. congruence.
    + rewrite IH. split; [now constructor|]. intros H. now apply Forall_cons in H as [_ H].
Qed.

Lemma elem_of_load_tables to_numeric tables df :
  df ∈ load_tables to_numeric tables ->
  exists t, t ∈ tables /\ is_wonderkids_table t = true /\ df = prepare to_numeric t.
Proof.
  induction tables as [|t tables IH]; simpl; [intros H; inversion H|].
  destruct (is_wonderkids_table t) eqn:Ht; simpl.
  - intros H. apply elem_of_cons in H as [-> | H].
    + exists t. split; [apply list_elem_of_here | auto].
    + destruct (IH H) as (t' & Hin & Hw & ->).
      exists t'. split; [now apply list_elem_of_further | auto].
  - intros H. destruct (IH H) as (t' & Hin & Hw & ->).
    exists t'. split; [now apply list_elem_of_further | auto].
Qed.

Lemma dataset_rows_origin to_numeric tables df rec :
  dataset to_numeric tables = Some df -> rec ∈ rows df ->
  exists t r,
    t ∈ tables /\ is_wonderkids_table t = true
    /\ r ∈ Raw.rows t /\ Raw.R r <> None
    /\ rec = label_row to_numeric
               (table_majority_category
                  (map Raw.Pos (filter (fun r => Raw.R r <> None) (Raw.rows t))))
               r.
Proof.
  intros Hdf Hrec. unfold dataset in Hdf.
  destruct (load_tables to_numeric tables) as [|d dfs] eqn:Hl; [discriminate|].
  inversion Hdf; subst df; clear Hdf.
  unfold merge, drop_duplicates, pd_concat in Hrec. cbn [rows] in Hrec.
  apply (fun H => elem_of_sublist _ _ _ H (drop_seen_sublist identity [] _)) in Hrec.
  apply list_elem_of_In, in_concat in Hrec as (l & Hl' & Hin).
  apply in_map_iff in Hl' as (f & <- & Hf).
  rewrite <- Hl in Hf. apply list_elem_of_In, elem_of_load_tables in Hf
    as (t & Ht & Hw & ->).
  unfold prepare in Hin. cbn [rows] in Hin.
  apply in_map_iff in Hin as (r & <- & Hr).
  apply list_elem_of_In in Hr. rewrite dropna_R_present in Hr.
  pose proof Hr as Hr'. apply list_elem_of_filter in Hr' as [Hpres Hrow].
  exists t, r. rewrite <- dropna_R_present. auto.
Qed.

(** X6.  The script halts with its error message exactly when no scraped
    table passes the Table Filter; otherwise it builds a dataset, even from
    tables whose rows are then all dropped.  Every record of the dataset
    comes from a row with a present R cell of a table that passed, with
    that row's name, age, position and club, its R cell coerced, and that
    table's category. *)
Theorem dataset_outcome (to_numeric : string -> option Z) (tables : list Raw.table) :
  (dataset to_numeric tables = None <->
   Forall (fun t => is_wonderkids_table t = false) tables)
  /\ (forall df rec,
        dataset to_numeric tables = Some df -> rec ∈ rows df ->
        exists t r,
          t ∈ tables /\ is_wonderkids_table t = true
          /\ r ∈ Raw.rows t /\ Raw.R r <> None
          /\ rec = label_row to_numeric
                     (table_majority_category
                        (map Raw.Pos (filter (fun r => Raw.R r <> None) (Raw.rows t))))
                     r).
Proof.
  split.
  - unfold dataset. rewrite <- (load_tables_nil_iff to_numeric tables). cbv zeta.
    destruct (load_tables to_numeric tables); split; intros H;
      (reflexivity || discriminate H).
  - intros df rec. apply dataset_rows_origin.
Qed.

(** [int] gives a whole number back. *)
Lemma py_int_number x : py_int (number x) = x.
Proof.
  destruct x as [z|]; [|reflexivity].
  unfold py_int, number. cbn [fmap option_fmap option_map].
  cbn [QArith_base.inject_Z QArith_base.Qnum QArith_base.Qden].
  now rewrite Z.quot_1_r.
Qed.

(** X7.  When a table passes the Table Filter but no row of the passing
    tables has an R cell that is a number (every cell absent, or present
    and not numeric), the script does not show its error message: it builds
    a dataset without a numeric rating and then stops at the sliders. *)
Theorem no_numeric_rating_stops_at_sliders to_numeric tables :
  (exists t, t ∈ tables /\ is_wonderkids_table t = true) ->
  (forall t r, t ∈ tables -> is_wonderkids_table t = true -> r ∈ Raw.rows t ->
               coerce to_numeric (Raw.R r) = None) ->
  exists df,
    dataset to_numeric tables = Some df
    /\ Forall (fun rec => Rating rec = None) (rows df)
    /\ slider_bounds df = None.
Proof.
  intros (t0 & Hin0 & Hw0) Hall.
  destruct (dataset to_numeric tables) as [df|] eqn:Hdf.
  - exists df. split; [reflexivity|].
    assert (Hnan : Forall (fun rec => Rating rec = None) (rows df)).
    { apply List.Forall_forall. intros rec Hrec. apply list_elem_of_In in Hrec.
      destruct (dataset_rows_origin _ _ _ _ Hdf Hrec) as (t & r & Ht & Hw & Hr & _ & ->).
      cbn [Rating label_row]. now apply (Hall t r). }
    split; [exact Hnan|].
    unfold slider_bounds. rewrite !py_int_number.
    assert (Hr : series_min (map Rating (rows df)) = None).
    { clear -Hnan. induction Hnan as [|rec l Hrec _ IH]; simpl; [reflexivity|].
      now rewrite Hrec. }
    rewrite Hr.
    destruct (series_min (map (fun r => Some (Age r)) (rows df))); [|reflexivity].
    destruct (series_max (map (fun r => Some (Age r)) (rows df))); reflexivity.
  - exfalso. unfold dataset in Hdf.
    destruct (load_tables to_numeric tables) as [|d dfs] eqn:Hl; [|discriminate].
    apply load_tables_nil_iff in Hl. rewrite List.Forall_forall in Hl.
    apply list_elem_of_In, Hl in Hin0. congruence.
Qed.

Lemma no_numeric_rating_stops_at_sliders_witness :
  (exists t, t ∈ [ {| Raw.columns := ["R"; "Name"; "Age"; "Pos"; "Club"];
                      Raw.rows := [Raw.Build_row None "Cid" 19 "GK" "Lyon"] |} ]
             /\ is_wonderkids_table t = true)
  /\ exists df,
       dataset to_numeric_digits
         [ {| Raw.columns := ["R"; "Name"; "Age"; "Pos"; "Club"];
              Raw.rows := [Raw.Build_row None "Cid" 19 "GK" "Lyon"] |} ] = Some df
       /\ Forall (fun rec => Rating rec = None) (rows df)
       /\ slider_bounds df = None.
Proof.
  assert (H : exists t,
            t ∈ [ {| Raw.columns := ["R"; "Name"; "Age"; "Pos"; "Club"];
                     Raw.rows := [Raw.Build_row None "Cid" 19 "GK" "Lyon"] |} ]
            /\ is_wonderkids_table t = true).
  { eexists. split; [apply list_elem_of_here | reflexivity]. }
  split; [exact H|].
  apply (no_numeric_rating_stops_at_sliders to_numeric_digits _ H).
  intros t r Ht _ Hr.
  apply list_elem_of_singleton in Ht. subst t. cbn [Raw.rows] in Hr.
  apply list_elem_of_singleton in Hr. subst r. reflexivity.
Defined.

(** ** Dataset Merger *)

Lemma drop_seen_distinct {K} `{EqDecision K} (key : PlayerRecord -> K) seen l :
  NoDup (map key l) -> (forall r, r ∈ l -> key r ∉ seen) ->
  drop_seen key seen l = l.
Proof.
  revert seen. induction l as [|x l IH]; intros seen Hnd Hfresh; simpl; [reflexivity|].
  simpl in Hnd. apply NoDup_cons in Hnd as [Hx Hnd].
  rewrite decide_False by (apply Hfresh, list_elem_of_here).
  f_equal. apply IH; [exact Hnd|].
  intros r Hr Hin. apply elem_of_cons in Hin as [Heq | Hin].
  - apply Hx. rewrite <- Heq. apply list_elem_of_In, in_map. now apply list_elem_of_In.
  - apply (Hfresh r); [now apply list_elem_of_further | exact Hin].
Qed.

(** X8.  When no two rows of the tables share Name, Club and Pos, the
    merge drops nothing: the dataset is the tables' rows one table after
    the other.  In particular merging a merged dataset again leaves it as
    it is. *)
Theorem merge_without_duplicates :
  (forall dfs,
     NoDup (map identity (concat (map rows dfs))) ->
     rows (merge dfs) = concat (map rows dfs))
  /\ (forall dfs, merge [merge dfs] = merge dfs).
Proof.
  assert (H1 : forall dfs,
            NoDup (map identity (concat (map rows dfs))) ->
            rows (merge dfs) = concat (map rows dfs)).
  { intros dfs Hnd. unfold merge, drop_duplicates, pd_concat. cbn [rows].
    apply drop_seen_distinct; [exact Hnd|]. intros r _ Hin. inversion Hin. }
  split; [exact H1|].
  intros dfs.
  assert (Hrows : rows (merge [merge dfs]) = rows (merge dfs)).
  { rewrite H1; cbn [map concat]; rewrite app_nil_r; [reflexivity|].
    apply drop_seen_NoDup. }
  assert (Hcols : columns (merge [merge dfs]) = columns (merge dfs)).
  { unfold merge at 1. unfold drop_duplicates, pd_concat. cbn [columns map fold_left].
    apply union_columns_nil. }
  destruct (merge [merge dfs]) as [c1 r1], (merge dfs) as [c2 r2].
  cbn [rows columns] in *. now subst.
Qed.

(** ** Filter/Export Layer *)

(** The view is the frame with the rows that pass the four tests. *)
Lemma filtered_mask cfg df :
  filtered cfg df =
  (fun m => {| columns := columns df;
               rows := List.filter (fun r => base_mask cfg r && m r) (rows df) |})
  <$> name_mask cfg.
Proof.
  unfold filtered, name_mask.
  destruct (club_step cfg
    (select_rows (fun r => rating_ge (Rating r) (rating_filter cfg))
       (select_rows (fun r => (fst (age_range cfg) <=? Age r)%Z
                              && (Age r <=? snd (age_range cfg))%Z) df)))
    as [Hcol Hrows].
  cbv zeta in Hcol, Hrows.
  set (g := if bool_decide (selected_clubs cfg <> []) then _ else _) in *.
  unfold select_rows in Hcol, Hrows. cbn [rows columns] in Hcol, Hrows.
  rewrite !filter_filter in Hrows.
  destruct (bool_decide (search_name cfg <> "")).
  - destruct (re_compile (search_name cfg)) as [re|]; [|reflexivity].
    cbn. unfold select_rows. rewrite Hcol, Hrows, filter_filter. do 2 f_equal.
    apply filter_ext. intros r. unfold base_mask. now rewrite !andb_assoc.
  - cbn. destruct g as [gc gr]. cbn [rows columns] in *. subst gc gr. do 2 f_equal.
    apply filter_ext. intros r. unfold base_mask. now rewrite !andb_assoc, andb_true_r.
Qed.

Lemma filter_idem {A} (f : A -> bool) l :
  List.filter f (List.filter f l) = List.filter f l.
Proof.
  rewrite filter_filter. apply filter_ext. intros x. now destruct (f x).
Qed.

Lemma filter_sublist {A} (f : A -> bool) l : List.filter f l `sublist_of` l.
Proof.
  induction l as [|x l IH]; simpl; [constructor|].
  destruct (f x); [now apply sublist_skip | now apply sublist_cons].
Qed.

Lemma sublist_map {A B} (f : A -> B) l1 l2 :
  l1 `sublist_of` l2 -> map f l1 `sublist_of` map f l2.
Proof. induction 1; simpl; now constructor. Qed.

(** X9.  A view never reorders, repeats or invents records, and keeps the
    columns of the dataset: its rows are rows of the dataset in the
    dataset's order.  Filtering the view again with the same configuration
    gives the view back, and when no two records of the dataset share
    Name, Club and Pos, none of the view do. *)
Theorem filtered_view_invariants cfg df view :
  filtered cfg df = Some view ->
  columns view = columns df
  /\ rows view `sublist_of` rows df
  /\ filtered cfg view = Some view
  /\ (NoDup (map identity (rows df)) -> NoDup (map identity (rows view))).
Proof.
  intros H. rewrite filtered_mask in H.
  rewrite (filtered_mask cfg view).
  destruct (name_mask cfg) as [m|]; [|discriminate].
  cbn in H. inversion H; subst view; clear H. cbn [rows columns fmap option_fmap option_map].
  split; [reflexivity|]. split; [apply filter_sublist|]. split.
  - now rewrite filter_idem.
  - intros Hnd.
    pose proof (sublist_map identity _ _
                  (filter_sublist (fun r => base_mask cfg r && m r) (rows df))) as Hs.
    exact (sublist_NoDup _ _ Hnd Hs).
Qed.

Lemma filtered_view_invariants_witness :
  filtered (sample_config "a.n") sample_dataset
  = Some {| columns := loaded_columns; rows := [ann] |}
  /\ rows {| columns := loaded_columns; rows := [ann] |} `sublist_of` rows sample_dataset
  /\ filtered (sample_config "a.n") {| columns := loaded_columns; rows := [ann] |}
     = Some {| columns := loaded_columns; rows := [ann] |}.
Proof.
  assert (H : filtered (sample_config "a.n") sample_dataset
              = Some {| columns := loaded_columns; rows := [ann] |})
    by (vm_compute; reflexivity).
  split; [exact H|].
  destruct (filtered_view_invariants _ _ _ H) as (_ & Hsub & Hidem & _).
  split; [exact Hsub | exact Hidem].
Defined.

(** X10.  Narrowing the age range or raising the minimum rating, with the
    clubs and the search text unchanged, never brings a record into the
    view: filtering the wider view with the narrower configuration gives
    the narrower view, whose rows are therefore rows of the wider view, in
    order. *)
Theorem filtered_narrowing cfg1 cfg2 df view1 view2 :
  (fst (age_range cfg1) <= fst (age_range cfg2))%Z ->
  (snd (age_range cfg2) <= snd (age_range cfg1))%Z ->
  (rating_filter cfg1 <= rating_filter cfg2)%Z ->
  selected_clubs cfg2 = selected_clubs cfg1 ->
  name_input cfg2 = name_input cfg1 ->
  filtered cfg1 df = Some view1 ->
  filtered cfg2 df = Some view2 ->
  filtered cfg2 view1 = Some view2
  /\ rows view2 `sublist_of` rows view1.
Proof.
  intros Hlo Hhi Hr Hc Hn H1 H2.
  assert (Hmask : name_mask cfg2 = name_mask cfg1).
  { unfold name_mask, search_name. now rewrite Hn. }
  assert (Himp : forall r, base_mask cfg2 r = true -> base_mask cfg1 r = true).
  { intros r. unfold base_mask. rewrite Hc, !andb_true_iff, !Z.leb_le, !rating_ge_spec.
    intros [[[Ha Hb] (z & Hz & Hle)] Hclub].
    repeat split; try lia; [|exact Hclub].
    exists z. split; [exact Hz | lia]. }
  rewrite filtered_mask in H1, H2. rewrite (filtered_mask cfg2 view1).
  rewrite Hmask in *.
  destruct (name_mask cfg1) as [m|]; [|discriminate].
  cbn in H1, H2. inversion H1; subst view1; clear H1.
  inversion H2; subst view2; clear H2.
  cbn [rows columns fmap option_fmap option_map].
  assert (Heq : List.filter (fun r => base_mask cfg2 r && m r)
                  (List.filter (fun r => base_mask cfg1 r && m r) (rows df))
                = List.filter (fun r => base_mask cfg2 r && m r) (rows df)).
  { rewrite filter_filter. apply filter_ext. intros r.
    destruct (base_mask cfg2 r) eqn:Hb; [|now rewrite andb_false_r].
    rewrite (Himp r Hb). now destruct (m r). }
  split; [now rewrite Heq|].
  rewrite <- Heq. apply filter_sublist.
Qed.

Lemma filtered_narrowing_witness :
  filtered (sample_config "") sample_dataset = Some sample_dataset
  /\ filtered {| age_range := (18, 21)%Z; rating_filter := 75%Z; selected_clubs := [];
                 name_input := "" |} sample_dataset
     = Some {| columns := loaded_columns; rows := [bob] |}
  /\ filtered {| age_range := (18, 21)%Z; rating_filter := 75%Z; selected_clubs := [];
                 name_input := "" |} sample_dataset
     = Some {| columns := loaded_columns; rows := [bob] |}
  /\ rows {| columns := loaded_columns; rows := [bob] |} `sublist_of` rows sample_dataset.
Proof.
  assert (H1 : filtered (sample_config "") sample_dataset = Some sample_dataset)
    by (vm_compute; reflexivity).
  assert (H2 : filtered {| age_range := (18, 21)%Z; rating_filter := 75%Z;
                           selected_clubs := []; name_input := "" |} sample_dataset
               = Some {| columns := loaded_columns; rows := [bob] |})
    by (vm_compute; reflexivity).
  split; [exact H1|]. split; [exact H2|].
  apply (filtered_narrowing (sample_config "")
           {| age_range := (18, 21)%Z; rating_filter := 75%Z; selected_clubs := [];
              name_input := "" |} sample_dataset sample_dataset
           {| columns := loaded_columns; rows := [bob] |});
    try reflexivity; try exact H1; try exact H2; simpl; lia.
Defined.

(** ** The sidebar *)

Lemma series_min_None l : series_min l = None <-> Forall (fun x => x = None) l.
Proof.
  induction l as [|x l IH]; simpl; [split; [constructor | reflexivity]|].
  destruct x as [a|].
  - split.
    + destruct (series_min l); discriminate.
    + intros H. apply Forall_cons in H as [H _]. discriminate.
  - rewrite IH. split; [now constructor | intros H; now apply Forall_cons in H as [_ H]].
Qed.

Lemma series_max_None l : series_max l = None <-> Forall (fun x => x = None) l.
Proof.
  induction l as [|x l IH]; simpl; [split; [constructor | reflexivity]|].
  destruct x as [a|].
  - split.
    + destruct (series_max l); discriminate.
    + intros H. apply Forall_cons in H as [H _]. discriminate.
  - rewrite IH. split; [now constructor | intros H; now apply Forall_cons in H as [_ H]].
Qed.

Lemma series_min_Some l m :
  series_min l = Some m ->
  Some m ∈ l /\ forall x, Some x ∈ l -> (m <= x)%Z.
Proof.
  revert m. induction l as [|y l IH]; intros m; simpl; [discriminate|].
  destruct y as [a|].
  - destruct (series_min l) as [b|] eqn:Hl.
    + intros [= <-]. destruct (IH b eq_refl) as [Hin Hle]. split.
      * destruct (Z.min_spec a b) as [[_ ->] | [_ ->]];
          [apply list_elem_of_here | now apply list_elem_of_further].
      * intros x Hx. apply elem_of_cons in Hx as [[= ->] | Hx]; [lia|].
        specialize (Hle x Hx). lia.
    + intros [= <-]. split; [apply list_elem_of_here|].
      intros x Hx. apply elem_of_cons in Hx as [[= ->] | Hx]; [lia|].
      apply series_min_None in Hl. rewrite List.Forall_forall in Hl.
      apply list_elem_of_In, Hl in Hx. discriminate.
  - intros Hm. destruct (IH m Hm) as [Hin Hle]. split.
    + now apply list_elem_of_further.
    + intros x Hx. apply elem_of_cons in Hx as [Hx | Hx]; [discriminate | auto].
Qed.

Lemma series_max_Some l m :
  series_max l = Some m ->
  Some m ∈ l /\ forall x, Some x ∈ l -> (x <= m)%Z.
Proof.
  revert m. induction l as [|y l IH]; intros m; simpl; [discriminate|].
  destruct y as [a|].
  - destruct (series_max l) as [b|] eqn:Hl.
    + intros [= <-]. destruct (IH b eq_refl) as [Hin Hle]. split.
      * destruct (Z.max_spec a b) as [[_ ->] | [_ ->]];
          [now apply list_elem_of_further | apply list_elem_of_here].
      * intros x Hx. apply elem_of_cons in Hx as [[= ->] | Hx]; [lia|].
        specialize (Hle x Hx). lia.
    + intros [= <-]. split; [apply list_elem_of_here|].
      intros x Hx. apply elem_of_cons in Hx as [[= ->] | Hx]; [lia|].
      apply series_max_None in Hl. rewrite List.Forall_forall in Hl.
      apply list_elem_of_In, Hl in Hx. discriminate.
  - intros Hm. destruct (IH m Hm) as [Hin Hle]. split.
    + now apply list_elem_of_further.
    + intros x Hx. apply elem_of_cons in Hx as [Hx | Hx]; [discriminate | auto].
Qed.

Lemma elem_of_map {A B} (f : A -> B) l y :
  y ∈ map f l <-> exists x, f x = y /\ x ∈ l.
Proof.
  rewrite list_elem_of_In, in_map_iff.
  split; intros (x & Hx & Hin); exists x; (split; [exact Hx | now apply list_elem_of_In]).
Qed.

Lemma slider_bounds_whole df :
  slider_bounds df
  = (lo ← series_min (map (fun r => Some (Age r)) (rows df));
     hi ← series_max (map (fun r => Some (Age r)) (rows df));
     rlo ← series_min (map Rating (rows df));
     rhi ← series_max (map Rating (rows df));
     Some {| min_age := lo; max_age := hi; min_rating := rlo; max_rating := rhi |}).
Proof. unfold slider_bounds. now rewrite !py_int_number. Qed.

Lemma slider_bounds_range df b :
  slider_bounds df = Some b ->
  (forall r, r ∈ rows df -> (min_age b <= Age r <= max_age b)%Z)
  /\ (forall r z, r ∈ rows df -> Rating r = Some z ->
        (min_rating b <= z <= max_rating b)%Z).
Proof.
  rewrite slider_bounds_whole. intros H.
  destruct (series_min (map (fun r => Some (Age r)) (rows df))) as [lo|] eqn:Hlo;
    [|discriminate].
  destruct (series_max (map (fun r => Some (Age r)) (rows df))) as [hi|] eqn:Hhi;
    [|discriminate].
  destruct (series_min (map Rating (rows df))) as [rlo|] eqn:Hrlo; [|discriminate].
  destruct (series_max (map Rating (rows df))) as [rhi|] eqn:Hrhi; [|discriminate].
  cbn in H. inversion H; subst b; clear H. cbn [min_age max_age min_rating max_rating].
  apply series_min_Some in Hlo as [_ Hlo2].
  apply series_max_Some in Hhi as [_ Hhi2].
  apply series_min_Some in Hrlo as [_ Hrlo2].
  apply series_max_Some in Hrhi as [_ Hrhi2].
  split.
  - intros r Hr. split; [apply Hlo2 | apply Hhi2];
      apply elem_of_map; exists r; auto.
  - intros r z Hr Hz. split; [apply Hrlo2 | apply Hrhi2];
      apply elem_of_map; exists r; auto.
Qed.

(** X11.  On a dataset whose ages and numeric ratings are whole numbers,
    as the records of this model have them: when the sliders can be drawn,
    their bounds are the least and the greatest age and the least and the
    greatest numeric rating of the dataset: each bound is the value of
    some record, the lower bound is not above the upper one, and every age
    and every numeric rating lies between its bounds.  (On a rating with a
    fraction [int] cuts the fraction off, and the bound is no rating of
    the dataset.) *)
Theorem slider_bounds_cover_the_data df b :
  slider_bounds df = Some b ->
  (min_age b <= max_age b)%Z /\ (min_rating b <= max_rating b)%Z
  /\ (exists r, r ∈ rows df /\ Age r = min_age b)
  /\ (exists r, r ∈ rows df /\ Age r = max_age b)
  /\ (exists r, r ∈ rows df /\ Rating r = Some (min_rating b))
  /\ (exists r, r ∈ rows df /\ Rating r = Some (max_rating b))
  /\ (forall r, r ∈ rows df ->
        (min_age b <= Age r <= max_age b)%Z
        /\ forall z, Rating r = Some z -> (min_rating b <= z <= max_rating b)%Z).
Proof.
  intros H.
  destruct (slider_bounds_range df b H) as [Hages Hrates].
  rewrite slider_bounds_whole in H.
  destruct (series_min (map (fun r => Some (Age r)) (rows df))) as [lo|] eqn:Hlo;
    [|discriminate].
  destruct (series_max (map (fun r => Some (Age r)) (rows df))) as [hi|] eqn:Hhi;
    [|discriminate].
  destruct (series_min (map Rating (rows df))) as [rlo|] eqn:Hrlo; [|discriminate].
  destruct (series_max (map Rating (rows df))) as [rhi|] eqn:Hrhi; [|discriminate].
  cbn in H. inversion H; subst b; clear H.
  cbn [min_age max_age min_rating max_rating] in *.
  apply series_min_Some in Hlo as [Hlo1 _].
  apply series_max_Some in Hhi as [Hhi1 _].
  apply series_min_Some in Hrlo as [Hrlo1 _].
  apply series_max_Some in Hrhi as [Hrhi1 _].
  apply elem_of_map in Hlo1 as (r1 & [= H1] & Hr1).
  apply elem_of_map in Hhi1 as (r2 & [= H2] & Hr2).
  apply elem_of_map in Hrlo1 as (r3 & H3 & Hr3).
  apply elem_of_map in Hrhi1 as (r4 & H4 & Hr4).
  split; [specialize (Hages r1 Hr1); lia|].
  split; [specialize (Hrates r3 rlo Hr3 H3); lia|].
  split; [now exists r1|]. split; [now exists r2|].
  split; [now exists r3|]. split; [now exists r4|].
  intros r Hr. split; [now apply Hages | intros z; now apply Hrates].
Qed.

Lemma slider_bounds_cover_the_data_witness :
  slider_bounds sample_dataset
  = Some {| min_age := 17; max_age := 18; min_rating := 80; max_rating := 80 |}
  /\ (17 <= 18)%Z /\ (80 <= 80)%Z.
Proof.
  assert (H : slider_bounds sample_dataset
              = Some {| min_age := 17; max_age := 18; min_rating := 80; max_rating := 80 |})
    by reflexivity.
  split; [exact H|].
  destruct (slider_bounds_cover_the_data _ _ H) as (H1 & H2 & _).
  split; [exact H1 | exact H2].
Defined.

Lemma slider_bounds_None df :
  slider_bounds df = None <-> Forall (fun r => Rating r = None) (rows df).
Proof.
  rewrite slider_bounds_whole. split.
  - intros H.
    destruct (series_min (map (fun r => Some (Age r)) (rows df))) as [lo|] eqn:Hlo.
    + destruct (series_max (map (fun r => Some (Age r)) (rows df))) as [hi|] eqn:Hhi.
      * destruct (series_min (map Rating (rows df))) as [rlo|] eqn:Hrlo.
        -- destruct (series_max (map Rating (rows df))) as [rhi|] eqn:Hrhi;
             [discriminate|].
           apply series_max_None in Hrhi. now rewrite List.Forall_map in Hrhi.
        -- apply series_min_None in Hrlo. now rewrite List.Forall_map in Hrlo.
      * apply series_max_None in Hhi. rewrite List.Forall_map in Hhi.
        destruct (rows df); [constructor|]. apply Forall_cons in Hhi as [Hhi _]. discriminate.
    + apply series_min_None in Hlo. rewrite List.Forall_map in Hlo.
      destruct (rows df); [constructor|]. apply Forall_cons in Hlo as [Hlo _]. discriminate.
  - intros H.
    assert (Hr : series_min (map Rating (rows df)) = None).
    { apply series_min_None. now rewrite List.Forall_map. }
    rewrite Hr.
    destruct (series_min (map (fun r => Some (Age r)) (rows df))); [|reflexivity].
    destruct (series_max (map (fun r => Some (Age r)) (rows df))); reflexivity.
Qed.

(** X12.  On a dataset whose ages and numeric ratings are whole numbers,
    as the records of this model have them.  The sliders cannot be drawn
    (the script stops on [int] of a NaN) exactly when no record of the
    dataset has a numeric rating, an empty dataset included.  Otherwise
    the first view, with every widget at its initial value, holds the
    records with a numeric rating, all of them and in the dataset's order:
    the records whose rating is NaN are left out from the start. *)
Theorem initial_view df :
  (initial_config df = None <-> Forall (fun r => Rating r = None) (rows df))
  /\ (forall cfg,
        initial_config df = Some cfg ->
        filtered cfg df
        = Some {| columns := columns df;
                  rows := List.filter (fun r => bool_decide (Rating r <> None))
                            (rows df) |}).
Proof.
  split.
  - rewrite <- slider_bounds_None. unfold initial_config.
    destruct (slider_bounds df); split; intros H; (reflexivity || discriminate H).
  - intros cfg Hcfg. unfold initial_config in Hcfg.
    destruct (slider_bounds df) as [b|] eqn:Hb; [|discriminate].
    cbn in Hcfg. inversion Hcfg; subst cfg; clear Hcfg.
    rewrite filtered_mask.
    change (name_mask _) with (Some (fun _ : PlayerRecord => true)).
    cbn [fmap option_fmap option_map]. do 2 f_equal.
    destruct (slider_bounds_range df b Hb) as [Hages Hrates].
    apply filter_ext_in. intros r Hr. apply list_elem_of_In in Hr.
    unfold base_mask. cbn [age_range rating_filter selected_clubs fst snd].
    rewrite andb_true_r. simpl (bool_decide ([] = []) || _). rewrite andb_true_r.
    destruct (Hages r Hr) as [Hlo Hhi].
    apply Z.leb_le in Hlo, Hhi. rewrite Hlo, Hhi. simpl.
    destruct (Rating r) as [z|] eqn:Hz; simpl.
    + apply Z.leb_le. now apply (Hrates r z Hr).
    + reflexivity.
Qed.

Lemma unique_from_spec seen l x :
  x ∈ unique_from seen l <-> x ∈ l /\ x ∉ seen.
Proof.
  revert seen. induction l as [|y l IH]; intros seen; simpl.
  - split; [intros H; inversion H | intros [H _]; inversion H].
  - case_decide as Hy.
    + rewrite IH, elem_of_cons. split; [tauto|].
      intros [[-> | H] Hs]; [contradiction | auto].
    + rewrite !elem_of_cons, IH, elem_of_cons. split.
      * intros [-> | [H Hs]]; [auto | tauto].
      * intros [[-> | H] Hs]; [auto|].
        destruct (decide (x = y)) as [-> | Hne]; [auto | tauto].
Qed.

Lemma unique_from_NoDup seen l : NoDup (unique_from seen l).
Proof.
  revert seen. induction l as [|y l IH]; intros seen; simpl; [constructor|].
  case_decide as Hy; [apply IH|].
  constructor; [|apply IH].
  rewrite unique_from_spec. intros [_ H]. apply H, list_elem_of_here.
Qed.

Lemma insert_sorted_perm x l : Permutation (insert_sorted x l) (x :: l).
Proof.
  induction l as [|y l IH]; simpl; [reflexivity|].
  destruct (String.leb x y); [reflexivity|].
  rewrite IH. apply perm_swap.
Qed.

Lemma sorted_perm l : Permutation (sorted l) l.
Proof.
  induction l as [|x l IH]; simpl; [reflexivity|].
  rewrite insert_sorted_perm. now constructor.
Qed.

Lemma leb_false_le x y : String.leb x y = false -> String.le y x.
Proof.
  intros H. unfold String.le.
  destruct (String.leb_total x y) as [H' | H']; [congruence | now rewrite H'].
Qed.

Lemma insert_sorted_Sorted x l :
  Sorted String.le l -> Sorted String.le (insert_sorted x l).
Proof.
  induction 1 as [|y l Hs IH Hhd]; simpl; [repeat constructor|].
  destruct (String.leb x y) eqn:Hxy.
  - constructor; [now constructor|]. constructor. unfold String.le. now rewrite Hxy.
  - constructor; [exact IH|].
    apply leb_false_le in Hxy.
    destruct l as [|z l]; simpl; [now constructor|].
    destruct (String.leb x z); constructor; [exact Hxy | now inversion Hhd].
Qed.

Lemma sorted_Sorted l : Sorted String.le (sorted l).
Proof.
  induction l as [|x l IH]; simpl; [constructor | now apply insert_sorted_Sorted].
Qed.

Lemma elem_of_clubs df c :
  c ∈ clubs df <-> exists r, r ∈ rows df /\ Club r = c.
Proof.
  unfold clubs, unique. rewrite sorted_perm, unique_from_spec, elem_of_map.
  split.
  - intros [(r & Hr & Hin) _]. now exists r.
  - intros (r & Hin & Hr). split; [now exists r | intros H; inversion H].
Qed.

(** X13.  The choices of the club multi-select are the clubs of the
    dataset, each once, in ascending order of their names. *)
Theorem clubs_choices df :
  StronglySorted String.le (clubs df)
  /\ NoDup (clubs df)
  /\ (forall c, c ∈ clubs df <-> exists r, r ∈ rows df /\ Club r = c).
Proof.
  split; [|split].
  - apply Sorted_StronglySorted; [|apply sorted_Sorted].
    intros x y z. apply transitivity.
  - unfold clubs, unique. rewrite sorted_perm. apply unique_from_NoDup.
  - apply elem_of_clubs.
Qed.

Example clubs_of_sample : clubs sample_dataset = ["Ajax"; "Porto"].
Proof. reflexivity. Qed.

(** X14.  Choosing every club of the dataset in the multi-select (with or
    without other names) gives the view that choosing none gives. *)
Theorem every_club_selected_is_no_restriction cfg df :
  (forall c, c ∈ clubs df -> c ∈ selected_clubs cfg) ->
  filtered cfg df
  = filtered {| age_range := age_range cfg; rating_filter := rating_filter cfg;
                selected_clubs := []; name_input := name_input cfg |} df.
Proof.
  intros Hall. rewrite !filtered_mask.
  change (name_mask {| age_range := age_range cfg; rating_filter := rating_filter cfg;
                       selected_clubs := []; name_input := name_input cfg |})
    with (name_mask cfg).
  destruct (name_mask cfg) as [m|]; [|reflexivity].
  cbn [fmap option_fmap option_map]. do 2 f_equal.
  apply filter_ext_in. intros r Hr. apply list_elem_of_In in Hr.
  unfold base_mask. cbn [age_range rating_filter selected_clubs].
  assert (Hclub : Club r ∈ selected_clubs cfg).
  { apply Hall, elem_of_clubs. now exists r. }
  rewrite (bool_decide_eq_true_2 _ Hclub).
  now rewrite orb_true_r.
Qed.

Lemma every_club_selected_is_no_restriction_witness :
  (forall c, c ∈ clubs sample_dataset -> c ∈ ["Porto"; "Ajax"; "Genk"])
  /\ filtered {| age_range := (15, 21)%Z; rating_filter := 70%Z;
                 selected_clubs := ["Porto"; "Ajax"; "Genk"]; name_input := "" |}
       sample_dataset
     = filtered (sample_config "") sample_dataset.
Proof.
  assert (H : forall c, c ∈ clubs sample_dataset -> c ∈ ["Porto"; "Ajax"; "Genk"]).
  { intros c Hc. change (clubs sample_dataset) with ["Ajax"; "Porto"] in Hc.
    apply elem_of_cons in Hc as [-> | Hc].
    - apply list_elem_of_further, list_elem_of_here.
    - apply list_elem_of_singleton in Hc. subst c. apply list_elem_of_here. }
  split; [exact H|].
  exact (every_club_selected_is_no_restriction
           {| age_range := (15, 21)%Z; rating_filter := 70%Z;
              selected_clubs := ["Porto"; "Ajax"; "Genk"]; name_input := "" |}
           sample_dataset H).
Defined.

(** ** What the tabs show *)

Lemma perm_app_swap_inner {A} (a b c d : list A) :
  Permutation ((a ++ b) ++ (c ++ d)) ((a ++ c) ++ (b ++ d)).
Proof.
  rewrite <- !app_assoc. apply Permutation_app_head.
  rewrite !app_assoc. apply Permutation_app_tail. apply Permutation_app_comm.
Qed.

Lemma concat_map_app_perm {A K} (T D : K -> list A) ks :
  Permutation (concat (map T ks) ++ concat (map D ks))
              (concat (map (fun k => T k ++ D k) ks)).
Proof.
  induction ks as [|k ks IH]; simpl; [reflexivity|].
  rewrite perm_app_swap_inner. now apply Permutation_app_head.
Qed.

Lemma concat_map_perm {A K} (F G : K -> list A) ks :
  (forall k, Permutation (F k) (G k)) ->
  Permutation (concat (map F ks)) (concat (map G ks)).
Proof.
  intros H. induction ks as [|k ks IH]; simpl; [reflexivity|].
  now apply Permutation_app.
Qed.

(** The records of a frame, category by category, are the records of the
    frame. *)
Lemma by_category_perm (l : list PlayerRecord) :
  Permutation
    (concat (map (fun k => List.filter (fun r => bool_decide (Category r = k)) l) order))
    l.
Proof.
  unfold order. cbn [map concat]. rewrite app_nil_r.
  induction l as [|x l IH]; [reflexivity|].
  cbn [List.filter].
  destruct (Category x); cbn [bool_decide decide_rel category_eq_dec
    category_rec category_rect sumbool_rec sumbool_rect]; simpl.
  - now apply perm_skip.
  - rewrite <- Permutation_middle. now apply perm_skip.
  - rewrite app_assoc, <- Permutation_middle, <- app_assoc. now apply perm_skip.
  - rewrite !app_assoc, <- Permutation_middle, <- !app_assoc. now apply perm_skip.
Qed.

Section TabWidgetsProperties.

Variable sort_values_rating_desc : list PlayerRecord -> list PlayerRecord.
Hypothesis sort_ok : sort_contract sort_values_rating_desc.

Lemma render_tab_rows cat_label view :
  rows (render_tab sort_values_rating_desc cat_label view)
  = take 100 (sort_values_rating_desc
                (List.filter (fun r => bool_decide (Category r = cat_label)) (rows view))).
Proof. reflexivity. Qed.

Lemma render_tab_nil cat_label view :
  rows (render_tab sort_values_rating_desc cat_label view) = [] <->
  forall r, r ∈ rows view -> Category r <> cat_label.
Proof.
  rewrite render_tab_rows.
  set (l := List.filter _ (rows view)).
  destruct (sort_ok l) as [Hperm _].
  assert (Hl : l = [] <-> forall r, r ∈ rows view -> Category r <> cat_label).
  { subst l. split.
    - intros Hnil r Hr Hcat.
      assert (Hin : In r (List.filter (fun r => bool_decide (Category r = cat_label))
                            (rows view))).
      { apply filter_In. split; [now apply list_elem_of_In|].
        now apply bool_decide_eq_true_2. }
      rewrite Hnil in Hin. inversion Hin.
    - intros Hnone.
      destruct (List.filter _ (rows view)) as [|x l'] eqn:Hf; [reflexivity|].
      assert (Hin : In x (List.filter (fun r => bool_decide (Category r = cat_label))
                            (rows view))) by (rewrite Hf; now left).
      apply filter_In in Hin as [Hin Hcat]. apply bool_decide_eq_true in Hcat.
      exfalso. apply (Hnone x); [now apply list_elem_of_In | exact Hcat]. }
  rewrite <- Hl. split.
  - intros Hnil. destruct (sort_values_rating_desc l) as [|x s] eqn:Hs.
    + now apply Permutation_nil.
    + discriminate.
  - intros Hnil. rewrite Hnil in Hperm.
    symmetry in Hperm. apply Permutation_nil in Hperm. now rewrite Hnil, Hperm.
Qed.

(** X15.  For a view of a loaded dataset, [render_tab] always has a table
    to show: its five columns are Rating, Name, Age, Pos, Club, without the
    Category the exports carry, and its lines are the records of the tab's
    slice.  The bar chart is drawn exactly when the view holds a record of
    the tab's category, with one bar per record of the slice. *)
Theorem render_tab_widgets_spec to_numeric tables df cfg view cat_label :
  dataset to_numeric tables = Some df ->
  filtered cfg df = Some view ->
  exists tab,
    render_tab_widgets sort_values_rating_desc cat_label view = Some tab
    /\ header (table tab) = ["Rating"; "Name"; "Age"; "Pos"; "Club"]
    /\ body (table tab)
       = map (fun r => [ from_option Num Empty (Rating r); Txt (Name r); Num (Age r);
                         Txt (Pos r); Txt (Club r) ])
             (rows (render_tab sort_values_rating_desc cat_label view))
    /\ (chart tab = None <-> forall r, r ∈ rows view -> Category r <> cat_label)
    /\ (forall c, chart tab = Some c ->
          bars c = map (fun r => (Name r, Rating r, Club r))
                       (rows (render_tab sort_values_rating_desc cat_label view))).
Proof.
  intros Hdf Hview.
  apply dataset_columns in Hdf. apply filtered_inv in Hview as [Hcol _].
  assert (Hc : columns (render_tab sort_values_rating_desc cat_label view)
               = loaded_columns).
  { unfold render_tab, select_rows. cbn [columns]. now rewrite Hcol. }
  unfold render_tab_widgets, getitem_columns. rewrite Hc.
  rewrite decide_True by (repeat constructor; apply bool_decide_unpack; reflexivity).
  cbn [mbind option_bind]. eexists. split; [reflexivity|].
  cbn [table chart header body write_frame columns rows].
  split; [reflexivity|]. split; [reflexivity|].
  unfold df_empty. rewrite Hc.
  rewrite (bool_decide_eq_false_2 (loaded_columns = [])) by discriminate.
  rewrite orb_false_r. rewrite <- render_tab_nil.
  split.
  - case_bool_decide as He; simpl; [|split; [discriminate | contradiction]].
    split; [auto | reflexivity].
  - intros c. case_bool_decide as He; simpl; [discriminate|].
    intros [= <-]. reflexivity.
Qed.

(** X16.  The four tabs show no record twice and invent none: the records
    of the four slices, put together, are records of the view, each as
    often as the view has it, with some records left over.  When no
    category has more than 100 records in the view, nothing is left over:
    the tabs show the whole view. *)
Theorem tabs_cover_the_view (view : DataFrame) :
  exists rest,
    Permutation
      (concat (map (fun k => rows (render_tab sort_values_rating_desc k view)) order)
       ++ rest)
      (rows view)
    /\ ((forall k, (length (List.filter (fun r => bool_decide (Category r = k))
                              (rows view)) <= 100)%nat) ->
        rest = []).
Proof.
  exists (concat (map (fun k =>
            drop 100 (sort_values_rating_desc
                        (List.filter (fun r => bool_decide (Category r = k)) (rows view))))
            order)).
  split.
  - etransitivity; [apply concat_map_app_perm|].
    etransitivity; [|apply (by_category_perm (rows view))].
    apply concat_map_perm. intros k.
    rewrite render_tab_rows, take_drop. apply sort_ok.
  - intros Hsmall. unfold order. cbn [map concat].
    assert (Hd : forall k,
              drop 100 (sort_values_rating_desc
                          (List.filter (fun r => bool_decide (Category r = k)) (rows view)))
              = []).
    { intros k. apply drop_ge.
      destruct (sort_ok (List.filter (fun r => bool_decide (Category r = k)) (rows view)))
        as [Hperm _].
      rewrite (Permutation_length Hperm). apply Hsmall. }
    now rewrite !Hd.
Qed.

End TabWidgetsProperties.

Lemma render_tab_widgets_spec_witness :
  sort_contract sort_ties_reversed
  /\ dataset to_numeric_digits [sample_table]
     = Some {| columns := loaded_columns;
               rows := [ bob; {| Rating := None; Name := "Dan"; Age := 17;
                                 Pos := "AM (C), ST"; Club := "Genk";
                                 Category := Forward |} ] |}
  /\ filtered (sample_config "")
       {| columns := loaded_columns;
          rows := [ bob; {| Rating := None; Name := "Dan"; Age := 17;
                            Pos := "AM (C), ST"; Club := "Genk";
                            Category := Forward |} ] |}
     = Some {| columns := loaded_columns; rows := [bob] |}
  /\ exists tab,
       render_tab_widgets sort_ties_reversed Goalkeeper
         {| columns := loaded_columns; rows := [bob] |} = Some tab
       /\ header (table tab) = ["Rating"; "Name"; "Age"; "Pos"; "Club"]
       /\ chart tab = None.
Proof.
  assert (H1 : dataset to_numeric_digits [sample_table]
     = Some {| columns := loaded_columns;
               rows := [ bob; {| Rating := None; Name := "Dan"; Age := 17;
                                 Pos := "AM (C), ST"; Club := "Genk";
                                 Category := Forward |} ] |})
    by (vm_compute; reflexivity).
  assert (H2 : filtered (sample_config "")
       {| columns := loaded_columns;
          rows := [ bob; {| Rating := None; Name := "Dan"; Age := 17;
                            Pos := "AM (C), ST"; Club := "Genk";
                            Category := Forward |} ] |}
     = Some {| columns := loaded_columns; rows := [bob] |})
    by (vm_compute; reflexivity).
  split; [exact sort_ties_reversed_contract|]. split; [exact H1|]. split; [exact H2|].
  destruct (render_tab_widgets_spec sort_ties_reversed sort_ties_reversed_contract
              _ _ _ _ _ Goalkeeper H1 H2) as (tab & Htab & Hh & _ & Hchart & _).
  exists tab. split; [exact Htab|]. split; [exact Hh|].
  apply Hchart. intros r Hr. apply list_elem_of_singleton in Hr. subst r. discriminate.
Defined.

Lemma tabs_cover_the_view_witness :
  sort_contract sort_ties_reversed
  /\ exists rest,
       Permutation
         (concat (map (fun k => rows (render_tab sort_ties_reversed k sample_dataset))
                      order) ++ rest)
         (rows sample_dataset)
       /\ rest = [].
Proof.
  split; [exact sort_ties_reversed_contract|].
  destruct (tabs_cover_the_view sort_ties_reversed sort_ties_reversed_contract
              sample_dataset) as (rest & Hperm & Hrest).
  exists rest. split; [exact Hperm|].
  apply Hrest. intros k. destruct k; vm_compute; lia.
Defined.

(** *** The search text *)

Lemma is_space_upper_char c : Text.is_space (Text.upper_char c) = Text.is_space c.
Proof.
  destruct c as [b0 b1 b2 b3 b4 b5 b6 b7].
  destruct b0, b1, b2, b3, b4, b5, b6, b7; reflexivity.
Qed.

Lemma lower_upper_char c : Text.lower_char (Text.upper_char c) = Text.lower_char c.
Proof.
  destruct c as [b0 b1 b2 b3 b4 b5 b6 b7].
  destruct b0, b1, b2, b3, b4, b5, b6, b7; reflexivity.
Qed.

Lemma lstrip_chars_spaces ws l :
  Forall (fun c => Text.is_space c = true) ws ->
  Text.lstrip_chars (ws ++ l) = Text.lstrip_chars l.
Proof. induction 1 as [|c ws Hc _ IH]; simpl; [reflexivity | now rewrite Hc]. Qed.

Lemma lstrip_chars_nil l :
  Text.lstrip_chars l = [] -> Forall (fun c => Text.is_space c = true) l.
Proof.
  induction l as [|c l IH]; simpl; [constructor|].
  destruct (Text.is_space c) eqn:Hc; [|discriminate].
  intros H. constructor; auto.
Qed.

Lemma lstrip_chars_app l ws :
  Text.lstrip_chars l <> [] ->
  Text.lstrip_chars (l ++ ws) = Text.lstrip_chars l ++ ws.
Proof.
  induction l as [|c l IH]; simpl; [contradiction|].
  destruct (Text.is_space c); [exact IH | reflexivity].
Qed.

Lemma lstrip_chars_map f l :
  (forall c, Text.is_space (f c) = Text.is_space c) ->
  Text.lstrip_chars (map f l) = map f (Text.lstrip_chars l).
Proof.
  intros Hf. induction l as [|c l IH]; simpl; [reflexivity|].
  rewrite Hf. destruct (Text.is_space c); [exact IH | reflexivity].
Qed.

(** White space around a text does not change what [strip] leaves. *)
Lemma strip_chars_padding ws1 l ws2 :
  Forall (fun c => Text.is_space c = true) ws1 ->
  Forall (fun c => Text.is_space c = true) ws2 ->
  rev (Text.lstrip_chars (rev (Text.lstrip_chars (ws1 ++ l ++ ws2))))
  = rev (Text.lstrip_chars (rev (Text.lstrip_chars l))).
Proof.
  intros H1 H2. rewrite (lstrip_chars_spaces ws1 _ H1). f_equal.
  destruct (Text.lstrip_chars l) as [|x xs] eqn:Hl.
  - apply lstrip_chars_nil in Hl.
    assert (Hall : Forall (fun c => Text.is_space c = true) (l ++ ws2))
      by (apply Forall_app; auto).
    rewrite <- (app_nil_r (l ++ ws2)), (lstrip_chars_spaces _ [] Hall). reflexivity.
  - rewrite lstrip_chars_app by (rewrite Hl; discriminate).
    rewrite Hl, rev_app_distr. apply lstrip_chars_spaces.
    apply List.Forall_rev. exact H2.
Qed.

(** X17.  The search does not look at the case of the typed text nor at
    white space before and after it: the text in upper case, with white
    space added at either end, is searched as the text itself, and gives
    the same view. *)
Theorem search_text_case_and_padding cfg ws1 ws2 :
  Forall (fun c => Text.is_space c = true) ws1 ->
  Forall (fun c => Text.is_space c = true) ws2 ->
  let typed := Text.str (ws1 ++ Text.chars (Text.upper (name_input cfg)) ++ ws2) in
  let cfg' := {| age_range := age_range cfg; rating_filter := rating_filter cfg;
                 selected_clubs := selected_clubs cfg; name_input := typed |} in
  search_name cfg' = search_name cfg
  /\ forall df, filtered cfg' df = filtered cfg df.
Proof.
  intros H1 H2 typed cfg'.
  assert (Hs : search_name cfg' = search_name cfg).
  { unfold search_name, cfg', typed. cbn [name_input].
    unfold Text.lower, Text.strip, Text.upper. rewrite !chars_str.
    rewrite (strip_chars_padding _ _ _ H1 H2). f_equal.
    rewrite (lstrip_chars_map _ _ is_space_upper_char), <- map_rev.
    rewrite (lstrip_chars_map _ _ is_space_upper_char), <- map_rev, map_map.
    apply map_ext. apply lower_upper_char. }
  split; [exact Hs|].
  intros df. rewrite !filtered_mask.
  assert (Hm : name_mask cfg' = name_mask cfg) by (unfold name_mask; now rewrite Hs).
  rewrite Hm. destruct (name_mask cfg) as [m|]; reflexivity.
Qed.

Lemma search_text_case_and_padding_witness :
  Forall (fun c => Text.is_space c = true) [" "%char]
  /\ Forall (fun c => Text.is_space c = true) [" "%char; " "%char]
  /\ search_name (sample_config "  BO   ") = search_name (sample_config "Bo").
Proof.
  assert (H1 : Forall (fun c => Text.is_space c = true) [" "%char])
    by (repeat constructor).
  assert (H2 : Forall (fun c => Text.is_space c = true) [" "%char; " "%char])
    by (repeat constructor).
  split; [exact H1|]. split; [exact H2|].
  destruct (search_text_case_and_padding (sample_config " Bo ") _ _ H1 H2) as [Hs _].
  etransitivity; [|etransitivity; [exact Hs|]]; reflexivity.
Defined.

(** ** Across the components *)

Lemma load_tables_app to_numeric ts1 ts2 :
  load_tables to_numeric (ts1 ++ ts2)
  = load_tables to_numeric ts1 ++ load_tables to_numeric ts2.
Proof.
  induction ts1 as [|t ts1 IH]; simpl; [reflexivity|].
  destruct (is_wonderkids_table t); simpl; now rewrite IH.
Qed.

(** X18.  A scraped table that fails the Table Filter (a navigation or
    advertisement table, an empty table) has no effect on the dataset,
    wherever it stands among the tables of the page. *)
Theorem failing_table_has_no_effect to_numeric ts1 t ts2 :
  is_wonderkids_table t = false ->
  dataset to_numeric (ts1 ++ t :: ts2) = dataset to_numeric (ts1 ++ ts2).
Proof.
  intros Ht. unfold dataset. rewrite !load_tables_app. simpl. now rewrite Ht.
Qed.

Lemma failing_table_has_no_effect_witness :
  is_wonderkids_table {| Raw.columns := ["Menu"]; Raw.rows := [] |} = false
  /\ dataset to_numeric_digits
       ([sample_table] ++ {| Raw.columns := ["Menu"]; Raw.rows := [] |} :: [sample_table])
     = dataset to_numeric_digits ([sample_table] ++ [sample_table]).
Proof.
  assert (H : is_wonderkids_table {| Raw.columns := ["Menu"]; Raw.rows := [] |} = false)
    by reflexivity.
  split; [exact H|].
  exact (failing_table_has_no_effect to_numeric_digits [sample_table] _ [sample_table] H).
Defined.

(** X19.  The Table Filter looks at the set of column names and at whether
    the table has rows, and at nothing else: tables with the same column
    names, in any order and however often repeated, and with rows in both
    or in neither, pass or fail together. *)
Theorem is_wonderkids_table_column_set t t' :
  (forall c, c ∈ Raw.columns t <-> c ∈ Raw.columns t') ->
  (Raw.rows t = [] <-> Raw.rows t' = []) ->
  is_wonderkids_table t = is_wonderkids_table t'.
Proof.
  intros Hcols Hrows. unfold is_wonderkids_table. f_equal.
  - apply bool_decide_ext. rewrite !elem_of_subseteq.
    split; intros H c Hc; apply elem_of_list_to_set;
      [apply Hcols | apply Hcols]; apply (elem_of_list_to_set (C:=gset string));
      now apply H.
  - destruct (Raw.rows t) as [|r l], (Raw.rows t') as [|r' l']; simpl; try reflexivity.
    + destruct Hrows as [H _]. now specialize (H eq_refl).
    + destruct Hrows as [_ H]. now specialize (H eq_refl).
Qed.

Lemma is_wonderkids_table_column_set_witness :
  (forall c, c ∈ Raw.columns sample_table
             <-> c ∈ ["Club"; "Pos"; "Age"; "Name"; "R"; "#"; "R"])
  /\ (Raw.rows sample_table = []
      <-> [Raw.Build_row None "Cid" 19 "GK" "Lyon"] = [])
  /\ is_wonderkids_table sample_table
     = is_wonderkids_table
         {| Raw.columns := ["Club"; "Pos"; "Age"; "Name"; "R"; "#"; "R"];
            Raw.rows := [Raw.Build_row None "Cid" 19 "GK" "Lyon"] |}.
Proof.
  assert (H1 : forall c, c ∈ Raw.columns sample_table
                         <-> c ∈ ["Club"; "Pos"; "Age"; "Name"; "R"; "#"; "R"]).
  { intros c. cbn [Raw.columns sample_table].
    rewrite !elem_of_cons, !elem_of_nil. tauto. }
  assert (H2 : Raw.rows sample_table = []
               <-> [Raw.Build_row None "Cid" 19 "GK" "Lyon"] = [])
    by (split; discriminate).
  split; [exact H1|]. split; [exact H2|].
  exact (is_wonderkids_table_column_set sample_table
           {| Raw.columns := ["Club"; "Pos"; "Age"; "Name"; "R"; "#"; "R"];
              Raw.rows := [Raw.Build_row None "Cid" 19 "GK" "Lyon"] |} H1 H2).
Defined.

Section ShownAndExported.

Variable sort_values_rating_desc : list PlayerRecord -> list PlayerRecord.
Hypothesis sort_ok : sort_contract sort_values_rating_desc.

(** X20.  What a tab shows is in the downloads: every record of a tab's
    slice has its line in the CSV export and in the spreadsheet export of
    the view, and each export has one line for each record of the view. *)
Theorem shown_records_are_exported cat_label view r :
  r ∈ rows (render_tab sort_values_rating_desc cat_label view) ->
  map (cell_of r) (columns view) ∈ body (to_csv view)
  /\ map (cell_of r) (columns view) ∈ body (to_excel view)
  /\ length (body (to_csv view)) = length (rows view)
  /\ length (body (to_excel view)) = length (rows view).
Proof.
  intros Hr. rewrite render_tab_rows in Hr.
  apply (fun H => elem_of_sublist _ _ _ H (sublist_take _ _)) in Hr.
  destruct (sort_ok (List.filter (fun r => bool_decide (Category r = cat_label))
                       (rows view))) as [Hperm _].
  rewrite Hperm in Hr. apply list_elem_of_In, filter_In in Hr as [Hr _].
  unfold to_csv, to_excel, write_frame. cbn [body].
  rewrite length_map.
  assert (Hline : map (cell_of r) (columns view)
                  ∈ map (fun r0 => map (cell_of r0) (columns view)) (rows view)).
  { apply elem_of_map. exists r. split; [reflexivity | now apply list_elem_of_In]. }
  auto.
Qed.

End ShownAndExported.

Lemma shown_records_are_exported_witness :
  sort_contract sort_ties_reversed
  /\ ann ∈ rows (render_tab sort_ties_reversed Forward sample_dataset)
  /\ map (cell_of ann) (columns sample_dataset) ∈ body (to_csv sample_dataset).
Proof.
  assert (H : ann ∈ rows (render_tab sort_ties_reversed Forward sample_dataset))
    by apply list_elem_of_here.
  split; [exact sort_ties_reversed_contract|]. split; [exact H|].
  destruct (shown_records_are_exported sort_ties_reversed sort_ties_reversed_contract
              Forward sample_dataset ann H) as [Hcsv _].
  exact Hcsv.
Defined.
